(** * GptService: the streaming completion wrapper of yabble

    A shallow embedding of the class [GptService] (an [EventEmitter] that
    owns a message transcript, streams chat completions, retries failed
    attempts with exponential backoff and emits ["gptreply"] / ["error"]
    events), followed by the properties its specification states.

    The specification renames the members of the class:
    [submitTurn] is [completion], [reset] is [resetContext], [dispose] is
    [cleanup], [shouldTrim] is [shouldResetContext]; [transcript] is
    [userContext], [replyIndex] is [partialResponseIndex], [sessionTag] is
    [callSid], [busy] is [isProcessing], [retryLimit] is [maxRetries]; a
    [reply-segment] event is a ["gptreply"] event.

    Conventions of the model:
    - a JavaScript string is the list of its UTF-16 code units;
    - a call is run to its end; what it does to the outside is recorded in a
      trace, in program order: the requests to the provider, the calls of
      [this.emit] and the backoff timers;
    - the listeners are outside the class: a call is given what they do on
      each event, return or throw;
    - the remote provider is a function from the attempt number and the
      messages sent to what the request does: reject, or stream chunks and
      then end or fail;
    - JavaScript numbers that count ([partialResponseIndex], [retryCount])
      are natural numbers. *)

From Stdlib Require Import List Bool Arith NArith Lia String Ascii.
Import ListNotations.

(** ** JavaScript strings *)

Module JS.

Abbreviation jsstring := (list N).

(** Source text is UTF-8; the engine holds strings as UTF-16 code units. *)
Fixpoint utf16_of_utf8 (bs : list N) : jsstring :=
  match bs with
  | [] => []
  | b0 :: r0 =>
    if (b0 <? 0x80)%N then b0 :: utf16_of_utf8 r0
    else if (b0 <? 0xE0)%N then
      match r0 with
      | b1 :: r1 =>
        N.lor (N.shiftl (N.land b0 0x1F) 6) (N.land b1 0x3F) :: utf16_of_utf8 r1
      | _ => [0xFFFD%N]
      end
    else if (b0 <? 0xF0)%N then
      match r0 with
      | b1 :: b2 :: r2 =>
        N.lor (N.shiftl (N.land b0 0x0F) 12)
              (N.lor (N.shiftl (N.land b1 0x3F) 6) (N.land b2 0x3F))
          :: utf16_of_utf8 r2
      | _ => [0xFFFD%N]
      end
    else
      match r0 with
      | b1 :: b2 :: b3 :: r3 =>
        let cp := N.lor (N.shiftl (N.land b0 0x07) 18)
                  (N.lor (N.shiftl (N.land b1 0x3F) 12)
                  (N.lor (N.shiftl (N.land b2 0x3F) 6) (N.land b3 0x3F))) in
        let v := (cp - 0x10000)%N in
        (0xD800 + N.shiftr v 10)%N :: (0xDC00 + N.land v 0x3FF)%N
          :: utf16_of_utf8 r3
      | _ => [0xFFFD%N]
      end
  end.

Definition js (s : string) : jsstring :=
  utf16_of_utf8 (map N_of_ascii (list_ascii_of_string s)).

(** WhiteSpace and LineTerminator code units, the ones [trim] strips. *)
Definition isWhiteSpace (c : N) : bool :=
  ((0x09 <=? c) && (c <=? 0x0D) || (c =? 0x20) || (c =? 0xA0) || (c =? 0x1680)
   || (0x2000 <=? c) && (c <=? 0x200A) || (c =? 0x2028) || (c =? 0x2029)
   || (c =? 0x202F) || (c =? 0x205F) || (c =? 0x3000) || (c =? 0xFEFF))%N.

Fixpoint trimStart (s : jsstring) : jsstring :=
  match s with
  | [] => []
  | c :: r => if isWhiteSpace c then trimStart r else s
  end.

Definition trimEnd (s : jsstring) : jsstring := rev (trimStart (rev s)).

Definition trim (s : jsstring) : jsstring := trimEnd (trimStart s).

(** [s.slice(-1)]: the last code unit as a string, or the empty string. *)
Definition slice_last (s : jsstring) : jsstring :=
  match rev s with
  | [] => []
  | c :: _ => [c]
  end.

(** [a === b] on strings. *)
Definition str_eqb (a b : jsstring) : bool :=
  if list_eq_dec N.eq_dec a b then true else false.

End JS.
Import JS.

(** ** Data model *)

(** Failures that travel as JavaScript exceptions. *)
Inductive Error : Type :=
| TypeError                       (* property read on [undefined] *)
| APIError (status : nat).        (* raised by the provider client *)

(** One entry of [userContext]. *)
Record Message : Type := { role : jsstring; content : jsstring }.

(** The fields of a [GptService] instance. *)
Record GptService : Type := {
  userContext : list Message;
  partialResponseIndex : nat;
  callSid : option jsstring;
  isProcessing : bool;
  maxRetries : nat
}.

(** What [this.emit] sends. *)
Inductive Event : Type :=
| gptreply (partialResponseIndex : nat) (partialResponse : jsstring)
           (callSid : option jsstring) (interactionCount : nat)
| error_event (e : Error).

(** Observable actions of a call, in program order: a request to the
    provider with the messages it carries, an emitted event, a backoff
    timer. *)
Inductive Action : Type :=
| Create (messages : list Message)
| Emit (ev : Event)
| SetTimeout (ms : N).

(** What the registered listeners do when an event is emitted: they all
    return ([None]), or one of them throws.  An ["error"] event for which no
    listener is registered makes [emit] throw the error itself. *)
Definition Listeners : Type := Event -> option Error.

(** A streamed chunk: [choices[0]] may be missing, [delta.content] may be
    absent, [finish_reason] is [null] or a string. *)
Record Choice : Type := {
  delta_content : option jsstring;
  finish_reason : option jsstring
}.

Record Chunk : Type := { choices : list Choice }.

(** What one request to the provider does. *)
Inductive Response : Type :=
| Rejected (e : Error)
| Stream (chunks : list Chunk) (failure : option Error).

(** The provider, by attempt number within a call and messages sent. *)
Definition Provider : Type := nat -> list Message -> Response.

Definition bullet : jsstring := Eval cbv in js "•".
Definition stop : jsstring := Eval cbv in js "stop".
Definition system : jsstring := Eval cbv in js "system".
Definition assistant : jsstring := Eval cbv in js "assistant".
Definition user : jsstring := Eval cbv in js "user".

Definition systemPrompt : jsstring :=
  js "You can only talk in 8 words max. Your name is Aiden Suh. You are from South Korea. You are a student at the University of Waterloo.".

Definition greeting : jsstring := js "Hello!".

Definition fallbackResponse : jsstring :=
  js "I apologize, but I'm having trouble processing your request. • Could you please repeat that?".

Definition seedContext : list Message :=
  [ {| role := system; content := systemPrompt |};
    {| role := assistant; content := greeting |} ].

(** ** Effects: state, trace, exceptions *)

Inductive Outcome (A : Type) : Type :=
| Returned (a : A)
| Thrown (e : Error)
| OutOfFuel.
Arguments Returned {A} a.
Arguments Thrown {A} e.
Arguments OutOfFuel {A}.

Definition M (A : Type) : Type :=
  GptService -> Outcome A * GptService * list Action.

Definition ret {A} (a : A) : M A := fun this => (Returned a, this, []).

Definition bind {A B} (m : M A) (f : A -> M B) : M B :=
  fun this =>
    match m this with
    | (Returned a, this1, t1) =>
      let '(o, this2, t2) := f a this1 in (o, this2, t1 ++ t2)
    | (Thrown e, this1, t1) => (Thrown e, this1, t1)
    | (OutOfFuel, this1, t1) => (OutOfFuel, this1, t1)
    end.

Declare Scope js_scope.
Delimit Scope js_scope with js.
Notation "x <- m ;; k" := (bind m (fun x => k))
  (at level 100, m at next level, right associativity) : js_scope.
Notation "m ;; k" := (bind m (fun _ => k))
  (at level 100, right associativity) : js_scope.
Open Scope js_scope.

Definition throw {A} (e : Error) : M A := fun this => (Thrown e, this, []).

Definition out_of_fuel {A} : M A := fun this => (OutOfFuel, this, []).

Definition get : M GptService := fun this => (Returned this, this, []).

(** [this.emit(...)]: the listeners run at once, inside the call; an
    exception of a listener leaves [emit] as an exception. *)
Definition emit (listeners : Listeners) (ev : Event) : M unit :=
  fun this =>
    match listeners ev with
    | None => (Returned tt, this, [Emit ev])
    | Some e => (Thrown e, this, [Emit ev])
    end.

(** [this.openai.chat.completions.create({ messages, stream: true })]; what
    the provider answers is looked up by the caller. *)
Definition create (messages : list Message) : M unit :=
  fun this => (Returned tt, this, [Create messages]).

(** [await new Promise(resolve => setTimeout(resolve, ms))] *)
Definition sleep (ms : N) : M unit :=
  fun this => (Returned tt, this, [SetTimeout ms]).

(** [try { m } catch (error) { h error }] *)
Definition try_catch {A} (m : M A) (h : Error -> M A) : M A :=
  fun this =>
    match m this with
    | (Thrown e, this1, t1) =>
      let '(o, this2, t2) := h e this1 in (o, this2, t1 ++ t2)
    | r => r
    end.

(** [try { m } finally { f }] *)
Definition try_finally {A} (m : M A) (f : M unit) : M A :=
  fun this =>
    match m this with
    | (OutOfFuel, this1, t1) => (OutOfFuel, this1, t1)
    | (o, this1, t1) =>
      match f this1 with
      | (Returned _, this2, t2) => (o, this2, t1 ++ t2)
      | (Thrown e, this2, t2) => (Thrown e, this2, t1 ++ t2)
      | (OutOfFuel, this2, t2) => (OutOfFuel, this2, t1 ++ t2)
      end
    end.

(** Field updates. *)
Definition set_userContext (c : list Message) (this : GptService) :=
  {| userContext := c;
     partialResponseIndex := partialResponseIndex this;
     callSid := callSid this;
     isProcessing := isProcessing this;
     maxRetries := maxRetries this |}.

Definition set_partialResponseIndex (n : nat) (this : GptService) :=
  {| userContext := userContext this;
     partialResponseIndex := n;
     callSid := callSid this;
     isProcessing := isProcessing this;
     maxRetries := maxRetries this |}.

Definition set_callSid (c : option jsstring) (this : GptService) :=
  {| userContext := userContext this;
     partialResponseIndex := partialResponseIndex this;
     callSid := c;
     isProcessing := isProcessing this;
     maxRetries := maxRetries this |}.

Definition set_isProcessing (b : bool) (this : GptService) :=
  {| userContext := userContext this;
     partialResponseIndex := partialResponseIndex this;
     callSid := callSid this;
     isProcessing := b;
     maxRetries := maxRetries this |}.

Definition modify (f : GptService -> GptService) : M unit :=
  fun this => (Returned tt, f this, []).

(** [this.userContext.push(m)] *)
Definition push (m : Message) : M unit :=
  modify (fun this => set_userContext (userContext this ++ [m]) this).

(** ** The class *)

(** [constructor()] *)
Definition constructor : GptService :=
  {| userContext := seedContext;
     partialResponseIndex := 0;
     callSid := None;
     isProcessing := false;
     maxRetries := 3 |}.

(** [setCallSid(callSid)] *)
Definition setCallSid (sid : jsstring) (this : GptService) : GptService :=
  set_callSid (Some sid) this.

(** [resetContext()]: [slice(0, 2)] keeps the first two messages. *)
Definition resetContext (this : GptService) : GptService :=
  set_partialResponseIndex 0
    (set_userContext (firstn 2 (userContext this)) this).

(** [cleanup()]; [removeAllListeners()] acts on the listeners, which later
    calls are given as an argument. *)
Definition cleanup (this : GptService) : GptService :=
  set_isProcessing false (resetContext this).

(** [shouldResetContext()] *)
Definition shouldResetContext (this : GptService) : bool :=
  10 <? List.length (userContext this).

(** The test of line 81 on one fragment:
    [content.trim().slice(-1) === "•" || finishReason === "stop"]. *)
Definition ends_with_bullet (s : jsstring) : bool :=
  str_eqb (slice_last (trim s)) bullet.

Definition is_stop (finishReason : option jsstring) : bool :=
  match finishReason with
  | Some r => str_eqb r stop
  | None => false
  end.

(** [chunk.choices[0]?.delta?.content || ""] *)
Definition content_of (c : Choice) : jsstring :=
  match delta_content c with
  | Some s => s
  | None => []
  end.

(** The [for await (const chunk of stream)] loop, lines 73-94, with the
    locals [completeResponse] and [partialResponse] as arguments; the
    stream ends, or throws [failure], after its chunks. It returns
    [completeResponse]. *)
Fixpoint for_await (listeners : Listeners) (interactionCount : nat)
    (chunks : list Chunk) (failure : option Error)
    (completeResponse partialResponse : jsstring) : M jsstring :=
  match chunks with
  | [] =>
    match failure with
    | Some e => throw e
    | None => ret completeResponse
    end
  | chunk :: rest =>
    match choices chunk with
    | [] => throw TypeError   (* [chunk.choices[0].finish_reason] *)
    | choice :: _ =>
      let content := content_of choice in
      let finishReason := finish_reason choice in
      let completeResponse := completeResponse ++ content in
      let partialResponse := partialResponse ++ content in
      if ends_with_bullet content || is_stop finishReason then
        this <- get ;;
        emit listeners
             (gptreply (partialResponseIndex this) (trim partialResponse)
                       (callSid this) interactionCount) ;;
        modify (fun this =>
          set_partialResponseIndex (partialResponseIndex this + 1) this) ;;
        for_await listeners interactionCount rest failure completeResponse []
      else
        for_await listeners interactionCount rest failure completeResponse
                  partialResponse
    end
  end.

(** The body of the inner [try], lines 64-106. *)
Definition attempt (listeners : Listeners) (openai : Provider)
    (interactionCount retryCount : nat) : M unit :=
  this <- get ;;
  create (userContext this) ;;
  match openai retryCount (userContext this) with
  | Rejected e => throw e
  | Stream chunks failure =>
    completeResponse <-
      for_await listeners interactionCount chunks failure [] [] ;;
    push {| role := assistant; content := completeResponse |}
  end.

(** [Math.pow(2, retryCount) * 1000], the backoff wait in milliseconds. *)
Definition backoff (retryCount : nat) : N :=
  (2 ^ N.of_nat retryCount * 1000)%N.

(** The [while (retryCount < this.maxRetries && !success)] loop, lines
    62-120, with the locals [retryCount] and [success] as arguments. Each
    iteration uses one unit of [fuel]. *)
Fixpoint retry_loop (listeners : Listeners) (openai : Provider)
    (interactionCount : nat) (fuel retryCount : nat) (success : bool)
    : M unit :=
  this <- get ;;
  if (retryCount <? maxRetries this) && negb success then
    match fuel with
    | 0 => out_of_fuel
    | S fuel' =>
      locals <-
        try_catch
          (attempt listeners openai interactionCount retryCount ;;
           ret (retryCount, true))
          (fun error =>
             let retryCount := retryCount + 1 in
             this <- get ;;
             if retryCount =? maxRetries this then throw error
             else
               sleep (backoff retryCount) ;;
               ret (retryCount, success)) ;;
      retry_loop listeners openai interactionCount fuel'
                 (fst locals) (snd locals)
    end
  else ret tt.

(** [async completion(text, interactionCount, role = "user", name = "user")];
    [name] is not used by the body. The loop gets [maxRetries] units of
    fuel, which it never exhausts (see [completion_frame]). *)
Definition completion (listeners : Listeners) (openai : Provider)
    (text : jsstring) (interactionCount : nat) (role : jsstring) : M unit :=
  fun this =>
    if isProcessing this then (Returned tt, this, [])
    else
      try_finally
        (try_catch
           (modify (set_isProcessing true) ;;
            push {| role := role; content := text |} ;;
            this <- get ;;
            retry_loop listeners openai interactionCount (maxRetries this)
                       0 false)
           (fun error =>
              emit listeners (error_event error) ;;
              this <- get ;;
              emit listeners
                   (gptreply (partialResponseIndex this) fallbackResponse
                             (callSid this) interactionCount)))
        (modify (set_isProcessing false))
        this.

(** Projections of a run. *)
Definition outcome_of {A} (r : Outcome A * GptService * list Action) :=
  fst (fst r).
Definition state_of {A} (r : Outcome A * GptService * list Action) :=
  snd (fst r).
Definition trace_of {A} (r : Outcome A * GptService * list Action) :=
  snd r.

Fixpoint events (t : list Action) : list Event :=
  match t with
  | [] => []
  | Emit ev :: t' => ev :: events t'
  | _ :: t' => events t'
  end.

Fixpoint timeouts (t : list Action) : list N :=
  match t with
  | [] => []
  | SetTimeout ms :: t' => ms :: timeouts t'
  | _ :: t' => timeouts t'
  end.

Fixpoint requests (t : list Action) : list (list Message) :=
  match t with
  | [] => []
  | Create messages :: t' => messages :: requests t'
  | _ :: t' => requests t'
  end.

(** ** Derived descriptions of a run

    Pure functions that say what the loops emit; they are proved equal to
    the loops below and serve to state the properties. *)

(** The last code unit of [s] that is not white space, if any. *)
Definition last_nonws (s : jsstring) : option N :=
  find (fun c => negb (isWhiteSpace c)) (rev s).

(** The emission test of the chunk loop on the first choice of a chunk. *)
Definition emits_at (choice : Choice) : bool :=
  ends_with_bullet (content_of choice) || is_stop (finish_reason choice).

(** The ["gptreply"] events the chunk loop emits over [chunks], starting at
    index [idx] with buffer [partialResponse]; a chunk without a first
    choice ends the loop. *)
Fixpoint segments (interactionCount : nat) (sid : option jsstring)
    (chunks : list Chunk) (idx : nat) (partialResponse : jsstring)
    : list Event :=
  match chunks with
  | [] => []
  | chunk :: rest =>
    match choices chunk with
    | [] => []
    | choice :: _ =>
      let partialResponse := partialResponse ++ content_of choice in
      if emits_at choice then
        gptreply idx (trim partialResponse) sid interactionCount
          :: segments interactionCount sid rest (idx + 1) []
      else segments interactionCount sid rest idx partialResponse
    end
  end.

(** The exception that ends the chunk loop, if any. *)
Fixpoint stream_error (chunks : list Chunk) (failure : option Error)
    : option Error :=
  match chunks with
  | [] => failure
  | chunk :: rest =>
    match choices chunk with
    | [] => Some TypeError
    | _ :: _ => stream_error rest failure
    end
  end.

(** The concatenation of the fragments of [chunks]. *)
Fixpoint stream_text (chunks : list Chunk) : jsstring :=
  match chunks with
  | [] => []
  | chunk :: rest =>
    match choices chunk with
    | [] => []
    | choice :: _ => content_of choice ++ stream_text rest
    end
  end.

(** The trace of [j] quiet failed attempts numbered from [n]: each is a
    request followed by its backoff wait. *)
Fixpoint quiet_retries (ctx : list Message) (j n : nat) : list Action :=
  match j with
  | 0 => []
  | S j' =>
    Create ctx :: SetTimeout (backoff (n + 1)) :: quiet_retries ctx j' (n + 1)
  end.

(** The same for one request. *)
Definition attempt_error (r : Response) : option Error :=
  match r with
  | Rejected e => Some e
  | Stream chunks failure => stream_error chunks failure
  end.

Definition attempt_segments (interactionCount : nat) (sid : option jsstring)
    (r : Response) (idx : nat) : list Event :=
  match r with
  | Rejected _ => []
  | Stream chunks _ => segments interactionCount sid chunks idx []
  end.

Definition attempt_text (r : Response) : jsstring :=
  match r with
  | Rejected _ => []
  | Stream chunks _ => stream_text chunks
  end.

(** The trace of [j] failed attempts numbered [n], [n+1], ..., each followed
    by its backoff wait, and the reply index after them. *)
Fixpoint retries_trace (openai : Provider) (interactionCount : nat)
    (sid : option jsstring) (ctx : list Message) (j n idx : nat)
    : list Action :=
  match j with
  | 0 => []
  | S j' =>
    let segs := attempt_segments interactionCount sid (openai n ctx) idx in
    Create ctx :: map Emit segs ++ SetTimeout (backoff (n + 1))
      :: retries_trace openai interactionCount sid ctx j' (n + 1)
           (idx + List.length segs)
  end.

Fixpoint retries_index (openai : Provider) (interactionCount : nat)
    (sid : option jsstring) (ctx : list Message) (j n idx : nat) : nat :=
  match j with
  | 0 => idx
  | S j' =>
    let segs := attempt_segments interactionCount sid (openai n ctx) idx in
    retries_index openai interactionCount sid ctx j' (n + 1)
      (idx + List.length segs)
  end.



(** Fields of events. *)
Definition is_reply (ev : Event) : bool :=
  match ev with
  | gptreply _ _ _ _ => true
  | error_event _ => false
  end.

Definition replies (t : list Action) : list Event :=
  filter is_reply (events t).

Definition errors (t : list Action) : list Event :=
  filter (fun ev => negb (is_reply ev)) (events t).

Definition index_of (ev : Event) : option nat :=
  match ev with
  | gptreply i _ _ _ => Some i
  | error_event _ => None
  end.

Definition text_of (ev : Event) : option jsstring :=
  match ev with
  | gptreply _ s _ _ => Some s
  | error_event _ => None
  end.

(** Number of occurrences of the marker in the fragments of a stream. *)
Definition marker_occurrences (chunks : list Chunk) : nat :=
  count_occ N.eq_dec (stream_text chunks) 8226%N.

(** Number of chunks whose fragment, trimmed, ends in the marker. *)
Definition marker_chunks (chunks : list Chunk) : nat :=
  List.length
    (filter (fun chunk =>
               match choices chunk with
               | [] => false
               | choice :: _ => ends_with_bullet (content_of choice)
               end) chunks).

(** A chunk has a first choice, and that choice does / does not carry
    [finish_reason === "stop"]. *)
Definition carries_stop (chunk : Chunk) : bool :=
  match choices chunk with
  | [] => false
  | choice :: _ => is_stop (finish_reason choice)
  end.

Definition plain (chunk : Chunk) : bool :=
  match choices chunk with
  | [] => false
  | choice :: _ => negb (is_stop (finish_reason choice))
  end.

Definition ends_on_marker (chunk : Chunk) : bool :=
  match choices chunk with
  | [] => false
  | choice :: _ => ends_with_bullet (content_of choice)
  end.

(** ** The emission rule in the specification's words

    The specification tests the trimmed partial buffer, where the source
    tests the trimmed fragment; this is the chunk loop with the
    specification's test. *)
Fixpoint for_await_spec (listeners : Listeners) (interactionCount : nat)
    (chunks : list Chunk) (failure : option Error)
    (completeResponse partialResponse : jsstring) : M jsstring :=
  match chunks with
  | [] =>
    match failure with
    | Some e => throw e
    | None => ret completeResponse
    end
  | chunk :: rest =>
    match choices chunk with
    | [] => throw TypeError
    | choice :: _ =>
      let completeResponse := completeResponse ++ content_of choice in
      let partialResponse := partialResponse ++ content_of choice in
      if ends_with_bullet partialResponse || is_stop (finish_reason choice)
      then
        this <- get ;;
        emit listeners
             (gptreply (partialResponseIndex this) (trim partialResponse)
                       (callSid this) interactionCount) ;;
        modify (fun this =>
          set_partialResponseIndex (partialResponseIndex this + 1) this) ;;
        for_await_spec listeners interactionCount rest failure
                       completeResponse []
      else
        for_await_spec listeners interactionCount rest failure
                       completeResponse partialResponse
    end
  end.

(** ** Reachable states: the constructor followed by method calls *)

Inductive reachable : GptService -> Prop :=
| reach_constructor : reachable constructor
| reach_setCallSid this sid :
    reachable this -> reachable (setCallSid sid this)
| reach_resetContext this :
    reachable this -> reachable (resetContext this)
| reach_cleanup this :
    reachable this -> reachable (cleanup this)
| reach_completion this listeners openai text interactionCount role :
    reachable this ->
    reachable
      (state_of (completion listeners openai text interactionCount role this)).

(** [this'] keeps [isProcessing], [callSid] and [maxRetries] of [this], has
    its transcript as a prefix of its own and a reply index that is not
    lower. *)
Definition extends (this this' : GptService) : Prop :=
  isProcessing this' = isProcessing this /\
  callSid this' = callSid this /\
  maxRetries this' = maxRetries this /\
  (exists extra, userContext this' = userContext this ++ extra) /\
  partialResponseIndex this <= partialResponseIndex this'.

(** The computation ends, leaves [isProcessing], [callSid] and [maxRetries]
    as they are, only appends to the transcript and does not lower the
    reply index. *)
Definition steady {A} (m : M A) : Prop :=
  forall this, outcome_of (m this) <> OutOfFuel /\
               extends this (state_of (m this)).

(** The transcript starts with the two seed messages. *)
Definition seeded (this : GptService) : Prop :=
  exists rest, userContext this = seedContext ++ rest.

(** The transcript sent to the provider: the user's message is pushed
    before the first request. *)
Definition sent_context (text role : jsstring) (this : GptService)
    : list Message :=
  userContext this ++ [ {| role := role; content := text |} ].

(** A request that emits nothing: it is rejected, or its stream has no
    chunk that passes the emission test before it ends or fails. *)
Definition quiet (r : Response) : bool :=
  match attempt_segments 0 None r 0 with
  | [] => true
  | _ :: _ => false
  end.

(** The streams of the boundary example: the stop signal on the last
    fragment, or in a chunk of its own with an empty delta. *)
Definition final_chunk : Chunk :=
  {| choices := [ {| delta_content := None; finish_reason := Some stop |} ] |}.

Definition chunk_of (content : string) (finishReason : option jsstring)
    : Chunk :=
  {| choices := [ {| delta_content := Some (js content);
                     finish_reason := finishReason |} ] |}.

Definition example_inline : list Chunk :=
  [ chunk_of "ab" None; chunk_of "c•" None; chunk_of "def•" (Some stop) ].

Definition example_separate : list Chunk :=
  [ chunk_of "ab" None; chunk_of "c•" None; chunk_of "def•" None;
    final_chunk ].

(** The number of events the specification announces for a stream with [k]
    occurrences of the marker: [k] when the streamed text ends on a marker,
    [k + 1] otherwise. *)
Definition announced_count (chunks : list Chunk) : nat :=
  if ends_with_bullet (stream_text chunks)
  then marker_occurrences chunks
  else marker_occurrences chunks + 1.

(** No listener throws. *)
Definition returning (listeners : Listeners) : Prop :=
  forall ev, listeners ev = None.

(** Listeners used in examples: every listener returns; or the same with
    no listener registered for ["error"]. *)
Definition all_return : Listeners := fun _ => None.

Definition no_error_listener : Listeners :=
  fun ev =>
    match ev with
    | error_event e => Some e
    | gptreply _ _ _ _ => None
    end.

(** Providers and streams used in examples. *)
Definition always_rejects : Provider := fun n _ => Rejected (APIError n).

Definition streams (chunks : list Chunk) : Provider :=
  fun _ _ => Stream chunks None.

Definition rejects_then (k : nat) (r : Response) : Provider :=
  fun n _ => if n <? k then Rejected (APIError n) else r.

(** A provider whose first stream delivers a fragment and then fails, and
    whose second stream completes. *)
Definition fails_midstream : Provider :=
  fun n _ =>
    match n with
    | 0 => Stream [chunk_of "Hi •" None] (Some (APIError 503))
    | _ => Stream [chunk_of "Hi •" None; final_chunk] None
    end.

(** ** Further notions used to state properties *)

(** [s] neither starts nor ends with white space. *)
Definition trimmed (s : jsstring) : bool :=
  match s with
  | [] => true
  | c :: _ => negb (isWhiteSpace c)
  end
  &&
  match rev s with
  | [] => true
  | c :: _ => negb (isWhiteSpace c)
  end.

(** A ["gptreply"] event that carries [sid] and [ic]; an ["error"] event
    carries neither. *)
Definition tagged (sid : option jsstring) (ic : nat) (ev : Event) : Prop :=
  match ev with
  | gptreply _ _ sid' ic' => sid' = sid /\ ic' = ic
  | error_event _ => True
  end.

(** The text of a ["gptreply"] event is trimmed. *)
Definition trimmed_text (ev : Event) : Prop :=
  match ev with
  | gptreply _ s _ _ => trimmed s = true
  | error_event _ => True
  end.

(** The text of a ["gptreply"] event ends with the marker. *)
Definition ends_in_marker (ev : Event) : Prop :=
  match ev with
  | gptreply _ s _ _ => slice_last s = bullet
  | error_event _ => False
  end.

(** A chunk has a first choice. *)
Definition has_choice (chunk : Chunk) : bool :=
  match choices chunk with
  | [] => false
  | _ :: _ => true
  end.

(** The sum of the waits of a trace, in milliseconds. *)
Definition total_wait (t : list Action) : N :=
  fold_right N.add 0%N (timeouts t).

(** One call of [completion], with what the outside does during it. *)
Record Call : Type := {
  call_listeners : Listeners;
  call_openai : Provider;
  call_text : jsstring;
  call_interactionCount : nat;
  call_role : jsstring
}.

(** Calls made one after the other, each on the state the previous one
    left. *)
Fixpoint completions (calls : list Call) (this : GptService) : GptService :=
  match calls with
  | [] => this
  | c :: rest =>
    completions rest
      (state_of (completion (call_listeners c) (call_openai c) (call_text c)
                            (call_interactionCount c) (call_role c) this))
  end.

(** ** The text-to-speech form ([App.tsx])

    The component [App] as state passing: its four [useState] cells are a
    record, the handlers are functions on it.  The browser is a parameter:
    which speech interfaces [window] has and whether their calls return or
    throw. *)

Module App.

(** [interface Voice] *)
Record Voice : Type := {
  name : jsstring;
  lang : jsstring;
  voiceURI : jsstring
}.

(** An entry of the list [chrome.tts.getVoices] delivers; either field may
    be absent or empty. *)
Record TtsVoice : Type := {
  voiceName : option jsstring;
  tts_lang : option jsstring
}.

(** The cells [text], [voices], [selectedVoice] and [isLoading]. *)
Record State : Type := {
  text : jsstring;
  voices : list Voice;
  selectedVoice : jsstring;
  isLoading : bool
}.

Definition initial : State :=
  {| text := []; voices := []; selectedVoice := []; isLoading := false |}.

Definition setText (t : jsstring) (st : State) : State :=
  {| text := t; voices := voices st; selectedVoice := selectedVoice st;
     isLoading := isLoading st |}.

Definition setVoices (l : list Voice) (st : State) : State :=
  {| text := text st; voices := l; selectedVoice := selectedVoice st;
     isLoading := isLoading st |}.

Definition setSelectedVoice (uri : jsstring) (st : State) : State :=
  {| text := text st; voices := voices st; selectedVoice := uri;
     isLoading := isLoading st |}.

Definition setIsLoading (b : bool) (st : State) : State :=
  {| text := text st; voices := voices st; selectedVoice := selectedVoice st;
     isLoading := b |}.

(** A call into the browser returns or throws. *)
Inductive Outcome : Type := Returns | Throws.

(** What [chrome.tts.getVoices(callback)] does: throw, never call back, or
    call back with a value that is an array of voices or something else. *)
Inductive GetVoices : Type :=
| GetVoicesThrows
| GetVoicesSilent
| GetVoicesCalls (voiceList : option (list TtsVoice)).

(** What [speechSynthesis.getVoices()] does. *)
Inductive SynthVoices : Type :=
| SynthVoicesThrows
| SynthVoicesReturns (fetchedVoices : list Voice).

(** [window.chrome.tts] *)
Record ChromeTts : Type := {
  getVoices : GetVoices;
  tts_speak : Outcome
}.

(** [window.speechSynthesis], with the constructor
    [SpeechSynthesisUtterance]. *)
Record SpeechSynthesis : Type := {
  synth_getVoices : SynthVoices;
  new_utterance : Outcome;
  synth_cancel : Outcome;
  synth_speak : Outcome
}.

Record Window : Type := {
  chrome_tts : option ChromeTts;
  speechSynthesis : option SpeechSynthesis
}.

Definition Unknown : jsstring := Eval cbv in js "Unknown".

(** [x || "Unknown"] for a string that may be absent. *)
Definition or_unknown (x : option jsstring) : jsstring :=
  match x with
  | Some (c :: s) => c :: s
  | _ => Unknown
  end.

(** The mapping of lines 48-52. *)
Definition formatVoice (voice : TtsVoice) : Voice :=
  {| name := or_unknown (voiceName voice);
     lang := or_unknown (tts_lang voice);
     voiceURI := or_unknown (voiceName voice) |}.

Definition defaultVoice : Voice :=
  {| name := js "Default Voice"; lang := js "en-US";
     voiceURI := js "default" |}.

Definition useDefault (st : State) : State :=
  setSelectedVoice (js "default") (setVoices [defaultVoice] st).

(** [fallbackToWebSpeech()], lines 73-107.  The boolean tells whether the
    handler [onvoiceschanged] was installed. *)
Definition fallbackToWebSpeech (w : Window) (st : State) : State * bool :=
  match speechSynthesis w with
  | Some synth =>
    match synth_getVoices synth with
    | SynthVoicesThrows => (useDefault st, false)
    | SynthVoicesReturns fetchedVoices =>
      match fetchedVoices with
      | first :: _ =>
        (setSelectedVoice (voiceURI first) (setVoices fetchedVoices st), false)
      | [] => (st, true)
      end
    end
  | None => (useDefault st, false)
  end.

(** [fetchVoices()], lines 38-71, run with the callback of [getVoices] when
    it is called. *)
Definition fetchVoices (w : Window) (st : State) : State * bool :=
  match chrome_tts w with
  | Some tts =>
    match getVoices tts with
    | GetVoicesThrows => fallbackToWebSpeech w st
    | GetVoicesSilent => (st, false)
    | GetVoicesCalls (Some (voice :: rest)) =>
      let formattedVoices := map formatVoice (voice :: rest) in
      (setSelectedVoice (voiceURI (formatVoice voice))
                        (setVoices formattedVoices st), false)
    | GetVoicesCalls _ => fallbackToWebSpeech w st
    end
  | None => fallbackToWebSpeech w st
  end.

(** The handler installed on [synth.onvoiceschanged], lines 85-91. *)
Definition onvoiceschanged (updatedVoices : list Voice) (st : State)
    : State :=
  match updatedVoices with
  | first :: _ =>
    setSelectedVoice (voiceURI first) (setVoices updatedVoices st)
  | [] => setVoices updatedVoices st
  end.

(** What a click asks of the browser, in order. *)
Inductive Effect : Type :=
| TtsSpeak (utterance : jsstring) (voice : jsstring)
| NewUtterance (utterance : jsstring)
| SynthCancel
| SynthSpeak (utterance : jsstring) (voice : option Voice)
| SetTimeout (ms : N).

(** [!text.trim()] *)
Definition blank (t : jsstring) : bool :=
  match trim t with
  | [] => true
  | _ :: _ => false
  end.

(** The [disabled] attribute of the button, line 207. *)
Definition disabled (st : State) : bool := isLoading st || blank (text st).

(** [voices.find((v) => v.voiceURI === selectedVoice)] *)
Definition findVoice (st : State) : option Voice :=
  find (fun v => str_eqb (voiceURI v) (selectedVoice st)) (voices st).

(** [handlePlayClick()], lines 112-162: the new state and what was asked of
    the browser.  An exception anywhere in the [try] block ends in
    [setIsLoading(false)]. *)
Definition handlePlayClick (w : Window) (st : State) : State * list Effect :=
  if blank (text st) then (st, [])
  else
    let st := setIsLoading true st in
    match chrome_tts w, speechSynthesis w with
    | Some tts, _ =>
      match tts_speak tts with
      | Returns => (st, [TtsSpeak (text st) (selectedVoice st)])
      | Throws =>
        (setIsLoading false st, [TtsSpeak (text st) (selectedVoice st)])
      end
    | None, Some synth =>
      match new_utterance synth with
      | Throws => (setIsLoading false st, [NewUtterance (text st)])
      | Returns =>
        let voice := findVoice st in
        match synth_cancel synth with
        | Throws =>
          (setIsLoading false st, [NewUtterance (text st); SynthCancel])
        | Returns =>
          match synth_speak synth with
          | Throws =>
            (setIsLoading false st,
             [NewUtterance (text st); SynthCancel;
              SynthSpeak (text st) voice])
          | Returns =>
            (st,
             [NewUtterance (text st); SynthCancel;
              SynthSpeak (text st) voice; SetTimeout 10000])
          end
        end
      end
    | None, None => (setIsLoading false st, [])
    end.

(** The [onEvent] handler given to [chrome.tts.speak], lines 124-128. *)
Definition onEvent (type : jsstring) (st : State) : State :=
  if str_eqb type (js "end") || str_eqb type (js "error")
  then setIsLoading false st
  else st.

(** The click handed the speech to the browser and no call threw. *)
Definition started (w : Window) : Prop :=
  match chrome_tts w, speechSynthesis w with
  | Some tts, _ => tts_speak tts = Returns
  | None, Some synth =>
    new_utterance synth = Returns /\ synth_cancel synth = Returns /\
    synth_speak synth = Returns
  | None, None => False
  end.

End App.

(** * Properties *)

(** ** Strings *)

Lemma trimStart_head l :
  hd_error (trimStart l) = find (fun c => negb (isWhiteSpace c)) l.
Proof.
  induction l as [|c l IH]; simpl; [reflexivity|].
  destruct (isWhiteSpace c); simpl; [exact IH | reflexivity].
Qed.

Lemma find_app_nonws (a b : jsstring) :
  find (fun c => negb (isWhiteSpace c)) (a ++ b) =
  match find (fun c => negb (isWhiteSpace c)) a with
  | Some c => Some c
  | None => find (fun c => negb (isWhiteSpace c)) b
  end.
Proof.
  induction a as [|c a IH]; simpl; [reflexivity|].
  destruct (isWhiteSpace c); simpl; [exact IH | reflexivity].
Qed.

Lemma last_nonws_trimStart s : last_nonws (trimStart s) = last_nonws s.
Proof.
  unfold last_nonws. induction s as [|c s IH]; simpl; [reflexivity|].
  destruct (isWhiteSpace c) eqn:Hc; [|reflexivity].
  rewrite IH, find_app_nonws. simpl. rewrite Hc. simpl.
  now destruct (find _ (rev s)).
Qed.

Lemma last_nonws_app a b :
  last_nonws (a ++ b) =
  match last_nonws b with
  | Some c => Some c
  | None => last_nonws a
  end.
Proof. unfold last_nonws. now rewrite rev_app_distr, find_app_nonws. Qed.

(** The last code unit of the trimmed string is the last one that is not
    white space. *)
Lemma slice_last_trim s :
  slice_last (trim s) =
  match last_nonws s with
  | Some c => [c]
  | None => []
  end.
Proof.
  unfold slice_last, trim, trimEnd. rewrite rev_involutive.
  rewrite <- (last_nonws_trimStart s). unfold last_nonws.
  rewrite <- trimStart_head.
  now destruct (trimStart (rev (trimStart s))).
Qed.

(** Appending a fragment to a buffer that does not end in the marker: the
    buffer ends in the marker exactly when the fragment does. *)
Lemma ends_with_bullet_app partialResponse content :
  ends_with_bullet partialResponse = false ->
  ends_with_bullet (partialResponse ++ content) = ends_with_bullet content.
Proof.
  unfold ends_with_bullet. rewrite !slice_last_trim, last_nonws_app.
  destruct (last_nonws content); [reflexivity|].
  intros ->. reflexivity.
Qed.

Lemma ends_with_bullet_nil : ends_with_bullet [] = false.
Proof. reflexivity. Qed.

(** ** State updates *)

Lemma set_partialResponseIndex_same this :
  set_partialResponseIndex (partialResponseIndex this) this = this.
Proof. now destruct this. Qed.

(** ** Calls whose listeners return

    The lemmas of this section describe a run in full; they hold when no
    listener throws. *)

Section ReturningListeners.

Variable listeners : Listeners.
Hypothesis listeners_return : returning listeners.

(** *** The chunk loop *)

(** What [for_await] does, in full: its outcome, final state and trace. *)
Lemma for_await_run ic chunks failure :
  forall completeResponse partialResponse this,
    for_await listeners ic chunks failure completeResponse partialResponse
              this =
    let segs := segments ic (callSid this) chunks (partialResponseIndex this)
                         partialResponse in
    (match stream_error chunks failure with
     | Some e => Thrown e
     | None => Returned (completeResponse ++ stream_text chunks)
     end,
     set_partialResponseIndex (partialResponseIndex this + List.length segs)
                              this,
     map Emit segs).
Proof.
  induction chunks as [|chunk rest IH]; intros cr pr this; simpl.
  - rewrite Nat.add_0_r, set_partialResponseIndex_same, app_nil_r.
    now destruct failure.
  - destruct (choices chunk) as [|choice others]; simpl.
    + now rewrite Nat.add_0_r, set_partialResponseIndex_same.
    + unfold emits_at.
      destruct (ends_with_bullet (content_of choice)
                || is_stop (finish_reason choice)).
      * unfold bind, get, emit, modify. rewrite listeners_return, IH. simpl.
        rewrite <- app_assoc.
        replace (partialResponseIndex this + 1 +
                 List.length (segments ic (callSid this) rest
                                (partialResponseIndex this + 1) []))
          with (partialResponseIndex this +
                S (List.length (segments ic (callSid this) rest
                                  (partialResponseIndex this + 1) [])))
          by lia.
        reflexivity.
      * rewrite IH. simpl. now rewrite <- app_assoc.
Qed.

(** The source's test on the fragment and the specification's test on the
    buffer give the same loop, from any buffer that does not end in the
    marker. *)
Lemma for_await_spec_eq ic chunks failure :
  forall completeResponse partialResponse this,
    ends_with_bullet partialResponse = false ->
    for_await listeners ic chunks failure completeResponse partialResponse
              this =
    for_await_spec listeners ic chunks failure completeResponse
                   partialResponse this.
Proof.
  induction chunks as [|chunk rest IH]; intros cr pr this Hpr; simpl;
    [reflexivity|].
  destruct (choices chunk) as [|choice others]; [reflexivity|].
  rewrite (ends_with_bullet_app _ (content_of choice) Hpr).
  destruct (ends_with_bullet (content_of choice)) eqn:Hc; simpl.
  - unfold bind, get, emit, modify.
    destruct (listeners _); [reflexivity|]. now rewrite IH.
  - destruct (is_stop (finish_reason choice)).
    + unfold bind, get, emit, modify.
      destruct (listeners _); [reflexivity|]. now rewrite IH.
    + apply IH. now rewrite ends_with_bullet_app.
Qed.

(** *** One attempt *)

Lemma attempt_run openai ic n this :
  attempt listeners openai ic n this =
  let r := openai n (userContext this) in
  let segs :=
    attempt_segments ic (callSid this) r (partialResponseIndex this) in
  let this1 :=
    set_partialResponseIndex (partialResponseIndex this + List.length segs)
                             this in
  match attempt_error r with
  | Some e => (Thrown e, this1, Create (userContext this) :: map Emit segs)
  | None =>
    (Returned tt,
     set_userContext
       (userContext this ++
          [ {| role := assistant; content := attempt_text r |} ]) this1,
     Create (userContext this) :: map Emit segs)
  end.
Proof.
  unfold attempt, bind, get, create. simpl.
  destruct (openai n (userContext this)) as [e|chunks failure]; simpl.
  - now rewrite Nat.add_0_r, set_partialResponseIndex_same.
  - rewrite for_await_run. simpl.
    destruct (stream_error chunks failure); simpl; [reflexivity|].
    now rewrite app_nil_r.
Qed.

(** *** The retry loop *)

(** Once [success] is set, or the attempts are used up, the loop is over. *)
Lemma retry_loop_exit openai ic fuel n success this :
  (n <? maxRetries this) && negb success = false ->
  retry_loop listeners openai ic fuel n success this = (Returned tt, this, []).
Proof.
  intros H. destruct fuel; simpl; unfold bind, get; simpl; now rewrite H.
Qed.

(** A successful attempt ends the loop with the assistant message pushed. *)
Lemma retry_loop_success openai ic fuel n this :
  n < maxRetries this ->
  attempt_error (openai n (userContext this)) = None ->
  retry_loop listeners openai ic (S fuel) n false this =
  let r := openai n (userContext this) in
  let segs :=
    attempt_segments ic (callSid this) r (partialResponseIndex this) in
  (Returned tt,
   set_userContext
     (userContext this ++
        [ {| role := assistant; content := attempt_text r |} ])
     (set_partialResponseIndex (partialResponseIndex this + List.length segs)
                               this),
   Create (userContext this) :: map Emit segs).
Proof.
  intros Hn Hok. apply Nat.ltb_lt in Hn.
  cbn [retry_loop]. unfold bind at 1. unfold get at 1. cbn iota beta.
  rewrite Hn. cbn [andb negb].
  unfold bind at 1. unfold try_catch. unfold bind at 1.
  rewrite attempt_run. cbn zeta. rewrite Hok.
  cbn [ret fst snd]. rewrite retry_loop_exit.
  - now rewrite !app_nil_r.
  - now rewrite andb_false_r.
Qed.

(** The failure of the last permitted attempt is thrown again. *)
Lemma retry_loop_last_failure openai ic fuel n this e :
  n + 1 = maxRetries this ->
  attempt_error (openai n (userContext this)) = Some e ->
  retry_loop listeners openai ic (S fuel) n false this =
  let r := openai n (userContext this) in
  let segs :=
    attempt_segments ic (callSid this) r (partialResponseIndex this) in
  (Thrown e,
   set_partialResponseIndex (partialResponseIndex this + List.length segs)
                            this,
   Create (userContext this) :: map Emit segs).
Proof.
  intros Hn Hfail.
  assert (Hlt : (n <? maxRetries this) = true) by (apply Nat.ltb_lt; lia).
  cbn [retry_loop]. unfold bind at 1. unfold get at 1. cbn iota beta.
  rewrite Hlt. cbn [andb negb].
  unfold bind at 1. unfold try_catch. unfold bind at 1.
  rewrite attempt_run. cbn zeta. rewrite Hfail.
  unfold bind, get. cbn [maxRetries set_partialResponseIndex].
  rewrite Hn, Nat.eqb_refl. unfold throw.
  now rewrite !app_nil_r.
Qed.

(** An earlier failure is followed by the backoff wait and a new attempt. *)
Lemma retry_loop_retry openai ic fuel n this e :
  n + 1 < maxRetries this ->
  attempt_error (openai n (userContext this)) = Some e ->
  retry_loop listeners openai ic (S fuel) n false this =
  let r := openai n (userContext this) in
  let segs :=
    attempt_segments ic (callSid this) r (partialResponseIndex this) in
  let '(o, this', t) :=
    retry_loop listeners openai ic fuel (n + 1) false
      (set_partialResponseIndex (partialResponseIndex this + List.length segs)
                                this) in
  (o, this',
   Create (userContext this) :: map Emit segs
     ++ SetTimeout (backoff (n + 1)) :: t).
Proof.
  intros Hn Hfail.
  assert (Hlt : (n <? maxRetries this) = true) by (apply Nat.ltb_lt; lia).
  assert (Hne : (n + 1 =? maxRetries this) = false) by (apply Nat.eqb_neq; lia).
  cbn [retry_loop]. unfold bind at 1. unfold get at 1. cbn iota beta.
  rewrite Hlt. cbn [andb negb].
  unfold bind at 1. unfold try_catch. unfold bind at 1.
  rewrite attempt_run. cbn zeta. rewrite Hfail.
  unfold bind at 1. unfold get at 1. cbn iota beta.
  cbn [maxRetries set_partialResponseIndex]. rewrite Hne.
  unfold bind at 1. unfold sleep at 1. cbn iota beta. unfold ret at 1.
  cbn [fst snd app].
  destruct (retry_loop listeners openai ic fuel (n + 1) false _)
    as [[o this'] t].
  now rewrite <- app_assoc.
Qed.

(** [j] failed attempts in a row, none of them the last permitted one. *)
Lemma retry_loop_retries openai ic fuel :
  forall j n this,
    n + j < maxRetries this ->
    (forall i, n <= i < n + j ->
               attempt_error (openai i (userContext this)) <> None) ->
    retry_loop listeners openai ic (j + fuel) n false this =
    let '(o, this', t) :=
      retry_loop listeners openai ic fuel (n + j) false
        (set_partialResponseIndex
           (retries_index openai ic (callSid this) (userContext this) j n
                          (partialResponseIndex this)) this) in
    (o, this',
     retries_trace openai ic (callSid this) (userContext this) j n
                   (partialResponseIndex this) ++ t).
Proof.
  induction j as [|j IH]; intros n this Hn Hfail.
  - cbn [retries_index retries_trace Nat.add app].
    rewrite Nat.add_0_r, set_partialResponseIndex_same.
    now destruct (retry_loop listeners openai ic fuel n false this)
      as [[o this'] t].
  - destruct (attempt_error (openai n (userContext this))) as [e|] eqn:He;
      [|exfalso; apply (Hfail n); [lia | exact He]].
    cbn [Nat.add]. rewrite (retry_loop_retry openai ic _ n this e);
      [|lia|exact He].
    cbn zeta. rewrite IH; cbn [userContext callSid maxRetries
                               partialResponseIndex set_partialResponseIndex];
      [|lia|intros i Hi; apply Hfail; lia].
    cbn [retries_index retries_trace].
    replace (n + 1 + j) with (n + S j) by lia.
    destruct (retry_loop listeners openai ic fuel (n + S j) false _)
      as [[o this'] t].
    cbn [app]. now rewrite <- app_assoc.
Qed.

(** *** Whole calls *)

(** A call on a busy session returns at once. *)
Lemma completion_busy openai text ic role this :
  isProcessing this = true ->
  completion listeners openai text ic role this = (Returned tt, this, []).
Proof. intros H. unfold completion. now rewrite H. Qed.

(** A call on an idle session: the prologue, the retry loop, then the outer
    handler and the [finally] block. *)
Lemma completion_idle openai text ic role this :
  isProcessing this = false ->
  completion listeners openai text ic role this =
  match retry_loop listeners openai ic (maxRetries this) 0 false
          (set_userContext (sent_context text role this)
                           (set_isProcessing true this)) with
  | (Returned _, this', t) => (Returned tt, set_isProcessing false this', t)
  | (Thrown e, this', t) =>
    (Returned tt, set_isProcessing false this',
     t ++ [ Emit (error_event e);
            Emit (gptreply (partialResponseIndex this') fallbackResponse
                           (callSid this') ic) ])
  | (OutOfFuel, this', t) => (OutOfFuel, this', t)
  end.
Proof.
  intros Hidle. unfold completion. rewrite Hidle.
  unfold try_finally, try_catch, bind at 1, modify at 1.
  unfold bind at 1, push, modify at 1. unfold bind at 1, get at 1.
  cbn [maxRetries set_userContext set_isProcessing userContext callSid
       partialResponseIndex isProcessing].
  fold (sent_context text role this).
  destruct (retry_loop listeners openai ic (maxRetries this) 0 false _)
    as [[[[]|e|] this'] t]; unfold bind, emit, get;
    rewrite ?listeners_return; cbn; now rewrite ?app_nil_r.
Qed.

(** [j] failed attempts, then a successful one. *)
Lemma completion_run_success openai text ic role this j :
  isProcessing this = false ->
  j < maxRetries this ->
  (forall i, i < j ->
             attempt_error (openai i (sent_context text role this)) <> None) ->
  attempt_error (openai j (sent_context text role this)) = None ->
  completion listeners openai text ic role this =
  let ctx := sent_context text role this in
  let idx := retries_index openai ic (callSid this) ctx j 0
                           (partialResponseIndex this) in
  let segs := attempt_segments ic (callSid this) (openai j ctx) idx in
  (Returned tt,
   {| userContext :=
        ctx ++ [ {| role := assistant;
                    content := attempt_text (openai j ctx) |} ];
      partialResponseIndex := idx + List.length segs;
      callSid := callSid this;
      isProcessing := false;
      maxRetries := maxRetries this |},
   retries_trace openai ic (callSid this) ctx j 0 (partialResponseIndex this)
     ++ Create ctx :: map Emit segs).
Proof.
  intros Hidle Hj Hfail Hok. rewrite completion_idle by exact Hidle.
  replace (maxRetries this) with (j + S (maxRetries this - S j)) at 1 by lia.
  rewrite retry_loop_retries;
    [|cbn; lia|intros i Hi; apply Hfail; lia].
  cbn [Nat.add]. rewrite retry_loop_success; [|cbn; lia|exact Hok].
  reflexivity.
Qed.

(** Every permitted attempt fails: the last failure reaches the outer
    handler, which emits the error and the fallback reply. *)
Lemma completion_run_exhausted openai text ic role this e :
  isProcessing this = false ->
  0 < maxRetries this ->
  (forall i, i < maxRetries this ->
             attempt_error (openai i (sent_context text role this)) <> None) ->
  attempt_error (openai (maxRetries this - 1) (sent_context text role this))
    = Some e ->
  completion listeners openai text ic role this =
  let ctx := sent_context text role this in
  let last := maxRetries this - 1 in
  let idx := retries_index openai ic (callSid this) ctx last 0
                           (partialResponseIndex this) in
  let segs := attempt_segments ic (callSid this) (openai last ctx) idx in
  (Returned tt,
   {| userContext := ctx;
      partialResponseIndex := idx + List.length segs;
      callSid := callSid this;
      isProcessing := false;
      maxRetries := maxRetries this |},
   retries_trace openai ic (callSid this) ctx last 0
                 (partialResponseIndex this)
     ++ Create ctx :: map Emit segs
     ++ [ Emit (error_event e);
          Emit (gptreply (idx + List.length segs) fallbackResponse
                         (callSid this) ic) ]).
Proof.
  intros Hidle Hpos Hfail Hlast. rewrite completion_idle by exact Hidle.
  replace (maxRetries this) with ((maxRetries this - 1) + 1) at 1 by lia.
  rewrite retry_loop_retries;
    [|cbn; lia|intros i Hi; apply Hfail; lia].
  cbn [Nat.add]. rewrite (retry_loop_last_failure openai ic 0 _ _ e);
    [|cbn; lia|exact Hlast].
  cbn. now rewrite <- !app_assoc.
Qed.

End ReturningListeners.

(** ** Calls with any listeners

    What a call keeps, whatever the provider and the listeners do. *)

Section AnyListeners.

Variable listeners : Listeners.

Lemma extends_refl this : extends this this.
Proof.
  unfold extends. repeat split; try lia. exists []. now rewrite app_nil_r.
Qed.

Lemma extends_trans a b c : extends a b -> extends b c -> extends a c.
Proof.
  intros (H1 & H2 & H3 & (x & H4) & H5) (K1 & K2 & K3 & (y & K4) & K5).
  unfold extends. repeat split; try congruence; try lia.
  exists (x ++ y). now rewrite K4, H4, app_assoc.
Qed.

Lemma steady_ret {A} (a : A) : steady (ret a).
Proof. intros this. split; [discriminate|apply extends_refl]. Qed.

Lemma steady_throw {A} e : steady (@throw A e).
Proof. intros this. split; [discriminate|apply extends_refl]. Qed.

Lemma steady_get : steady get.
Proof. intros this. split; [discriminate|apply extends_refl]. Qed.

Lemma steady_emit ev : steady (emit listeners ev).
Proof.
  intros this. unfold emit.
  destruct (listeners ev); (split; [discriminate|apply extends_refl]).
Qed.

Lemma steady_create messages : steady (create messages).
Proof. intros this. split; [discriminate|apply extends_refl]. Qed.

Lemma steady_sleep ms : steady (sleep ms).
Proof. intros this. split; [discriminate|apply extends_refl]. Qed.

Lemma steady_push m : steady (push m).
Proof.
  intros this. split; [discriminate|]. cbn. unfold extends. cbn.
  repeat split; try lia. now exists [m].
Qed.

Lemma steady_increment :
  steady (modify (fun this =>
    set_partialResponseIndex (partialResponseIndex this + 1) this)).
Proof.
  intros this. split; [discriminate|]. cbn. unfold extends. cbn.
  repeat split; try lia. exists []. now rewrite app_nil_r.
Qed.

Lemma steady_bind {A B} (m : M A) (f : A -> M B) :
  steady m -> (forall a, steady (f a)) -> steady (bind m f).
Proof.
  intros Hm Hf this. specialize (Hm this). unfold bind.
  destruct (m this) as [[[a|e|] this1] t1]; cbn in Hm.
  - specialize (Hf a this1). destruct (f a this1) as [[o this2] t2].
    cbn in *. split; [tauto|]. eapply extends_trans; [apply Hm|apply Hf].
  - cbn. split; [discriminate|apply Hm].
  - destruct Hm as [Hm _]. now contradiction Hm.
Qed.

Lemma steady_try_catch {A} (m : M A) (h : Error -> M A) :
  steady m -> (forall e, steady (h e)) -> steady (try_catch m h).
Proof.
  intros Hm Hh this. specialize (Hm this). unfold try_catch.
  destruct (m this) as [[[a|e|] this1] t1]; cbn in Hm.
  - exact Hm.
  - specialize (Hh e this1). destruct (h e this1) as [[o this2] t2].
    cbn in *. split; [tauto|]. eapply extends_trans; [apply Hm|apply Hh].
  - exact Hm.
Qed.

Lemma steady_for_await ic chunks failure :
  forall completeResponse partialResponse,
    steady (for_await listeners ic chunks failure completeResponse
                      partialResponse).
Proof.
  induction chunks as [|chunk rest IH]; intros cr pr; cbn [for_await].
  - destruct failure; [apply steady_throw|apply steady_ret].
  - destruct (choices chunk) as [|choice others]; [apply steady_throw|].
    destruct (_ || _); [|apply IH].
    apply steady_bind; [apply steady_get|intros this0].
    apply steady_bind; [apply steady_emit|intros _].
    apply steady_bind; [apply steady_increment|intros _]. apply IH.
Qed.

Lemma steady_attempt openai ic n : steady (attempt listeners openai ic n).
Proof.
  unfold attempt. apply steady_bind; [apply steady_get|intros this0].
  apply steady_bind; [apply steady_create|intros _].
  destruct (openai n (userContext this0)); [apply steady_throw|].
  apply steady_bind; [apply steady_for_await|intros cr]. apply steady_push.
Qed.

(** One iteration of the loop. *)
Lemma retry_loop_unfold openai ic fuel n success this :
  (n <? maxRetries this) && negb success = true ->
  retry_loop listeners openai ic (S fuel) n success this =
  (locals <-
     try_catch
       (attempt listeners openai ic n ;; ret (n, true))
       (fun error =>
          this0 <- get ;;
          if n + 1 =? maxRetries this0 then throw error
          else sleep (backoff (n + 1)) ;; ret (n + 1, success)) ;;
   retry_loop listeners openai ic fuel (fst locals) (snd locals)) this.
Proof.
  intros Hcond. cbn [retry_loop]. unfold bind at 1, get at 1.
  cbn iota beta. rewrite Hcond.
  now destruct (bind _ _ this) as [[o this2] t2].
Qed.

(** What an iteration hands to the next one: [success] set, or one more
    failed attempt counted. *)
Lemma retry_loop_locals openai ic n success this locals this1 t1 :
  try_catch
    (attempt listeners openai ic n ;; ret (n, true))
    (fun error =>
       this0 <- get ;;
       if n + 1 =? maxRetries this0 then throw error
       else sleep (backoff (n + 1)) ;; ret (n + 1, success)) this
  = (Returned locals, this1, t1) ->
  locals = (n, true) \/ fst locals = n + 1.
Proof.
  unfold try_catch, bind at 1.
  destruct (attempt listeners openai ic n this) as [[[[]|e|] s] t].
  - unfold ret. intros H. injection H as <- _ _. now left.
  - unfold bind at 1, get at 1. cbn iota beta.
    destruct (n + 1 =? maxRetries s); [discriminate|].
    unfold bind, sleep, ret. intros H. injection H as <- _ _. now right.
  - discriminate.
Qed.

Lemma steady_iteration openai ic n success :
  steady
    (try_catch
       (attempt listeners openai ic n ;; ret (n, true))
       (fun error =>
          this0 <- get ;;
          if n + 1 =? maxRetries this0 then throw error
          else sleep (backoff (n + 1)) ;; ret (n + 1, success))).
Proof.
  apply steady_try_catch.
  - apply steady_bind; [apply steady_attempt|intros _; apply steady_ret].
  - intros e. apply steady_bind; [apply steady_get|intros this0].
    destruct (n + 1 =? maxRetries this0); [apply steady_throw|].
    apply steady_bind; [apply steady_sleep|intros _]. apply steady_ret.
Qed.

(** For any provider and listeners the loop ends within [maxRetries]
    iterations. *)
Lemma retry_loop_frame openai ic :
  forall fuel n success this,
    maxRetries this <= fuel + n ->
    outcome_of (retry_loop listeners openai ic fuel n success this)
      <> OutOfFuel /\
    extends this
            (state_of (retry_loop listeners openai ic fuel n success this)).
Proof.
  induction fuel as [|fuel IH]; intros n success this Hfuel;
    (destruct ((n <? maxRetries this) && negb success) eqn:Hcond;
     [|rewrite retry_loop_exit by exact Hcond;
       split; [discriminate|apply extends_refl]]).
  - apply andb_prop in Hcond as [Hlt _]. apply Nat.ltb_lt in Hlt. lia.
  - remember (retry_loop listeners openai ic (S fuel) n success this)
      as r eqn:Hr.
    rewrite retry_loop_unfold in Hr by exact Hcond. unfold bind at 1 in Hr.
    pose proof (steady_iteration openai ic n success this) as [Hout Hext].
    pose proof (retry_loop_locals openai ic n success this) as Hlocals.
    destruct (try_catch _ _ this) as [[[locals|e|] this1] t1];
      cbn [outcome_of state_of fst snd] in Hout, Hext.
    + assert (Hmax : maxRetries this1 = maxRetries this)
        by (destruct Hext as (_ & _ & Hmax & _); exact Hmax).
      specialize (IH (fst locals) (snd locals) this1).
      destruct (Hlocals locals this1 t1 eq_refl) as [-> | Hn].
      * cbn [fst snd] in Hr.
        rewrite retry_loop_exit in Hr by apply andb_false_r.
        subst r. cbn. split; [discriminate|exact Hext].
      * destruct (retry_loop listeners openai ic fuel (fst locals)
                             (snd locals) this1) as [[o this2] t2].
        subst r. cbn in *. destruct IH as [Hout2 Hext2]; [lia|].
        split; [exact Hout2|]. eapply extends_trans; eassumption.
    + subst r. cbn. split; [discriminate|exact Hext].
    + now contradiction Hout.
Qed.

Lemma bind_get {B} (k : GptService -> M B) this :
  bind get k this = k this this.
Proof. unfold bind, get. now destruct (k this this) as [[o s] t]. Qed.

Lemma try_catch_modify {B} f (k : unit -> M B) h this :
  try_catch (bind (modify f) k) h this = try_catch (k tt) h (f this).
Proof.
  unfold try_catch, bind, modify.
  now destruct (k tt (f this)) as [[[b|e|] s] t].
Qed.

Lemma steady_retry_loop openai ic :
  steady (this0 <- get ;;
          retry_loop listeners openai ic (maxRetries this0) 0 false).
Proof. intros this. rewrite bind_get. apply retry_loop_frame. lia. Qed.

(** A call ends, whatever the provider and the listeners do; it changes
    neither [callSid] nor [maxRetries], only appends to the transcript, and
    leaves an idle session idle. *)
Lemma completion_frame openai text ic role this :
  let r := completion listeners openai text ic role this in
  outcome_of r <> OutOfFuel /\
  (isProcessing this = false -> isProcessing (state_of r) = false) /\
  callSid (state_of r) = callSid this /\
  maxRetries (state_of r) = maxRetries this /\
  (exists extra, userContext (state_of r) = userContext this ++ extra) /\
  partialResponseIndex this <= partialResponseIndex (state_of r).
Proof.
  cbv zeta. unfold completion. destruct (isProcessing this) eqn:Hbusy.
  - cbn. repeat split; try lia; try congruence.
    exists []. now rewrite app_nil_r.
  - unfold try_finally. rewrite try_catch_modify. unfold push.
    rewrite try_catch_modify.
    match goal with
    | |- context [try_catch ?m ?h ?s] =>
      assert (Hbody : steady (try_catch m h));
        [|specialize (Hbody s); set (this1 := s) in *;
          destruct (try_catch m h this1) as [[o s'] t]]
    end.
    { apply steady_try_catch; [apply steady_retry_loop|].
      intros e. apply steady_bind; [apply steady_emit|intros _].
      apply steady_bind; [apply steady_get|intros s]. apply steady_emit. }
    cbn [outcome_of state_of fst snd] in Hbody.
    destruct Hbody as (Hout & _ & H2 & H3 & (extra & H4) & H5).
    subst this1. cbn in H2, H3, H4, H5.
    assert (H4' : exists extra', userContext s' = userContext this ++ extra').
    { exists ({| role := role; content := text |} :: extra).
      rewrite H4. now rewrite <- app_assoc. }
    destruct o as [[]|e|]; [| |congruence]; cbn;
      (repeat split; try assumption; discriminate).
Qed.

End AnyListeners.

(** With no listener for ["error"], the handler's [emit] throws: the call
    ends with the exception, the fallback reply is not emitted, and the
    [finally] block has run. *)
Lemma completion_without_error_listener :
  let r := completion no_error_listener always_rejects (js "hi") 7 user
                      constructor in
  outcome_of r = Thrown (APIError 2) /\
  events (trace_of r) = [error_event (APIError 2)] /\
  isProcessing (state_of r) = false.
Proof. vm_compute. repeat split. Qed.

(** [shouldResetContext] is true from 11 messages on. *)
Lemma shouldResetContext_spec this :
  shouldResetContext this = true <-> 10 < List.length (userContext this).
Proof. unfold shouldResetContext. apply Nat.ltb_lt. Qed.

(** ** Traces *)

Lemma events_app t1 t2 : events (t1 ++ t2) = events t1 ++ events t2.
Proof.
  induction t1 as [|[msgs|ev|ms] t1 IH]; simpl;
    [reflexivity|exact IH| |exact IH].
  now rewrite IH.
Qed.

Lemma timeouts_app t1 t2 : timeouts (t1 ++ t2) = timeouts t1 ++ timeouts t2.
Proof.
  induction t1 as [|[msgs|ev|ms] t1 IH]; simpl;
    [reflexivity|exact IH|exact IH|].
  now rewrite IH.
Qed.

Lemma requests_app t1 t2 : requests (t1 ++ t2) = requests t1 ++ requests t2.
Proof.
  induction t1 as [|[msgs|ev|ms] t1 IH]; simpl;
    [reflexivity| |exact IH|exact IH].
  now rewrite IH.
Qed.

Lemma requests_Emit evs : requests (map Emit evs) = [].
Proof. induction evs as [|ev evs IH]; simpl; [reflexivity|exact IH]. Qed.

Lemma events_Emit evs : events (map Emit evs) = evs.
Proof. induction evs as [|ev evs IH]; simpl; [reflexivity|now rewrite IH]. Qed.

Lemma timeouts_Emit evs : timeouts (map Emit evs) = [].
Proof. induction evs as [|ev evs IH]; simpl; [reflexivity|exact IH]. Qed.

Lemma events_SetTimeout l : events (map SetTimeout l) = [].
Proof. induction l as [|ms l IH]; simpl; [reflexivity|exact IH]. Qed.

(** ** Segments *)

Lemma segments_replies ic sid chunks :
  forall idx pr, forallb is_reply (segments ic sid chunks idx pr) = true.
Proof.
  induction chunks as [|chunk rest IH]; intros idx pr; simpl; [reflexivity|].
  destruct (choices chunk) as [|choice others]; [reflexivity|].
  destruct (emits_at choice); simpl; apply IH.
Qed.

(** The events of a stream carry consecutive indices from the counter. *)
Lemma segments_indices ic sid chunks :
  forall idx pr,
    map index_of (segments ic sid chunks idx pr) =
    map Some (seq idx (List.length (segments ic sid chunks idx pr))).
Proof.
  induction chunks as [|chunk rest IH]; intros idx pr; simpl; [reflexivity|].
  destruct (choices chunk) as [|choice others]; [reflexivity|].
  destruct (emits_at choice); simpl; [|apply IH].
  rewrite IH. now rewrite Nat.add_1_r.
Qed.

(** How many there are depends on the chunks alone. *)
Lemma segments_length_any chunks :
  forall ic sid idx pr ic' sid' idx' pr',
    List.length (segments ic sid chunks idx pr) =
    List.length (segments ic' sid' chunks idx' pr').
Proof.
  induction chunks as [|chunk rest IH]; intros; simpl; [reflexivity|].
  destruct (choices chunk) as [|choice others]; [reflexivity|].
  destruct (emits_at choice); simpl; [f_equal|]; apply IH.
Qed.

Lemma segments_length ic sid chunks idx pr :
  List.length (segments ic sid chunks idx pr) =
  List.length (segments 0 None chunks 0 []).
Proof. apply segments_length_any. Qed.

(** Chunks without the stop signal emit once per fragment that ends in the
    marker. *)
Lemma segments_plain ic sid body :
  forall rest idx pr,
    forallb plain body = true ->
    List.length (segments ic sid (body ++ rest) idx pr) =
    marker_chunks body +
    List.length (segments 0 None rest 0 []).
Proof.
  unfold marker_chunks.
  induction body as [|chunk body IH]; intros rest idx pr Hplain; simpl.
  - apply segments_length.
  - simpl in Hplain. apply andb_prop in Hplain as [Hc Hbody].
    unfold plain in Hc. destruct (choices chunk) as [|choice others];
      [discriminate|].
    unfold emits_at. apply negb_true_iff in Hc. rewrite Hc, orb_false_r.
    destruct (ends_with_bullet (content_of choice)); simpl;
      now rewrite IH.
Qed.

Lemma marker_chunks_app a b :
  marker_chunks (a ++ b) = marker_chunks a + marker_chunks b.
Proof. unfold marker_chunks. now rewrite filter_app, length_app. Qed.

(** A stream whose last chunk alone carries the stop signal. *)
Lemma segments_count ic sid body last idx pr :
  forallb plain body = true ->
  carries_stop last = true ->
  List.length (segments ic sid (body ++ [last]) idx pr) =
  marker_chunks (body ++ [last]) + (if ends_on_marker last then 0 else 1).
Proof.
  intros Hbody Hlast. rewrite segments_plain by exact Hbody.
  rewrite marker_chunks_app.
  unfold carries_stop in Hlast. unfold ends_on_marker, marker_chunks. simpl.
  destruct (choices last) as [|choice others]; [discriminate|].
  unfold emits_at. rewrite Hlast, orb_true_r.
  destruct (ends_with_bullet (content_of choice)); simpl; lia.
Qed.

Lemma stream_error_plain body last :
  forallb plain body = true ->
  carries_stop last = true ->
  stream_error (body ++ [last]) None = None.
Proof.
  intros Hbody Hlast. induction body as [|chunk body IH]; simpl.
  - unfold carries_stop in Hlast. now destruct (choices last).
  - simpl in Hbody. apply andb_prop in Hbody as [Hc Hbody].
    unfold plain in Hc. destruct (choices chunk); [discriminate|].
    now apply IH.
Qed.

(** ** Failed attempts and their waits *)

Lemma retries_trace_timeouts openai ic sid ctx :
  forall j n idx,
    timeouts (retries_trace openai ic sid ctx j n idx) =
    map backoff (seq (n + 1) j).
Proof.
  induction j as [|j IH]; intros n idx; [reflexivity|].
  cbn [retries_trace seq map timeouts].
  rewrite timeouts_app, timeouts_Emit. cbn [timeouts app]. rewrite IH.
  now replace (n + 1 + 1) with (S (n + 1)) by lia.
Qed.

Lemma retries_trace_requests openai ic sid ctx :
  forall j n idx,
    requests (retries_trace openai ic sid ctx j n idx) = repeat ctx j.
Proof.
  induction j as [|j IH]; intros n idx; [reflexivity|].
  cbn [retries_trace requests repeat].
  rewrite requests_app, requests_Emit. cbn [requests app]. now rewrite IH.
Qed.

Lemma attempt_segments_replies ic sid r idx :
  forallb is_reply (attempt_segments ic sid r idx) = true.
Proof.
  unfold attempt_segments. destruct r; [reflexivity|apply segments_replies].
Qed.

Lemma retries_trace_replies openai ic sid ctx :
  forall j n idx,
    forallb is_reply (events (retries_trace openai ic sid ctx j n idx)) = true.
Proof.
  induction j as [|j IH]; intros n idx; [reflexivity|].
  cbn [retries_trace events].
  rewrite events_app, events_Emit, forallb_app. cbn [events]. rewrite IH.
  unfold attempt_segments. destruct (openai n ctx); simpl; [reflexivity|].
  now rewrite segments_replies.
Qed.

Lemma attempt_segments_indices ic sid r idx :
  map index_of (attempt_segments ic sid r idx) =
  map Some (seq idx (List.length (attempt_segments ic sid r idx))).
Proof.
  unfold attempt_segments. destruct r; [reflexivity|apply segments_indices].
Qed.

(** The reply index after the failed attempts counts their segments. *)
Lemma retries_index_length openai ic sid ctx :
  forall j n idx,
    retries_index openai ic sid ctx j n idx =
    idx + List.length (events (retries_trace openai ic sid ctx j n idx)).
Proof.
  induction j as [|j IH]; intros n idx; [cbn; lia|].
  cbn [retries_index retries_trace events].
  rewrite events_app, events_Emit, length_app. cbn [events].
  rewrite IH. lia.
Qed.

(** Across the failed attempts the indices stay consecutive. *)
Lemma retries_trace_indices openai ic sid ctx :
  forall j n idx,
    map index_of (events (retries_trace openai ic sid ctx j n idx)) =
    map Some
      (seq idx
         (List.length (events (retries_trace openai ic sid ctx j n idx)))).
Proof.
  induction j as [|j IH]; intros n idx; [reflexivity|].
  cbn [retries_trace events].
  rewrite events_app, events_Emit, length_app. cbn [events].
  rewrite map_app, seq_app, map_app, attempt_segments_indices, IH.
  reflexivity.
Qed.

Lemma quiet_segments ic sid r idx :
  quiet r = true -> attempt_segments ic sid r idx = [].
Proof.
  unfold quiet, attempt_segments. destruct r as [e|chunks failure];
    [reflexivity|].
  intros H. apply length_zero_iff_nil. rewrite segments_length.
  now destruct (segments 0 None chunks 0 []).
Qed.

(** Quiet failures leave nothing in the trace but the requests and the
    waits. *)
Lemma retries_trace_quiet openai ic sid ctx :
  forall j n idx,
    (forall i, n <= i < n + j -> quiet (openai i ctx) = true) ->
    retries_trace openai ic sid ctx j n idx = quiet_retries ctx j n /\
    retries_index openai ic sid ctx j n idx = idx.
Proof.
  induction j as [|j IH]; intros n idx Hq; [now split|].
  cbn [retries_trace retries_index quiet_retries].
  rewrite (quiet_segments ic sid (openai n ctx) idx) by (apply Hq; lia).
  cbn [map app List.length]. rewrite Nat.add_0_r.
  destruct (IH (n + 1) idx) as [Ht Hi]; [intros i Hi; apply Hq; lia|].
  now rewrite Ht, Hi.
Qed.

Lemma quiet_retries_events ctx :
  forall j n, events (quiet_retries ctx j n) = [].
Proof. induction j as [|j IH]; intros n; [reflexivity|apply IH]. Qed.

Lemma quiet_retries_timeouts ctx :
  forall j n, timeouts (quiet_retries ctx j n) = map backoff (seq (n + 1) j).
Proof.
  induction j as [|j IH]; intros n; [reflexivity|].
  cbn [quiet_retries timeouts seq map]. rewrite IH.
  now replace (n + 1 + 1) with (S (n + 1)) by lia.
Qed.

Lemma forallb_filter_false {A} (f : A -> bool) l :
  forallb f l = true -> filter (fun x => negb (f x)) l = [].
Proof.
  induction l as [|x l IH]; simpl; [reflexivity|].
  intros H. apply andb_prop in H as [Hx Hl]. rewrite Hx. simpl. now apply IH.
Qed.


(** Among the first [m] attempts, either there is a first one that passes
    [P], or none passes. *)
Lemma first_success (P : nat -> bool) :
  forall m,
    (exists j, j < m /\ (forall i, i < j -> P i = false) /\ P j = true) \/
    (forall i, i < m -> P i = false).
Proof.
  induction m as [|m [(j & Hj & Hbefore & Hpass)|Hnone]].
  - right. intros i Hi. lia.
  - left. exists j. repeat split; [lia|exact Hbefore|exact Hpass].
  - destruct (P m) eqn:Hm.
    + left. exists m. repeat split; [lia|intros i Hi; now apply Hnone|exact Hm].
    + right. intros i Hi. destruct (Nat.eq_dec i m) as [->|Hne];
        [exact Hm|apply Hnone; lia].
Qed.

(** ** The transcript seed *)

Lemma resetContext_seeded this :
  seeded this -> userContext (resetContext this) = seedContext.
Proof. intros [rest H]. unfold resetContext. cbn. now rewrite H. Qed.

Lemma completion_seeded listeners openai text ic role this :
  seeded this ->
  seeded (state_of (completion listeners openai text ic role this)).
Proof.
  intros [rest H].
  destruct (completion_frame listeners openai text ic role this)
    as (_ & _ & _ & _ & (extra & Hctx) & _).
  exists (rest ++ extra). now rewrite Hctx, H, app_assoc.
Qed.

Lemma reachable_seeded this : reachable this -> seeded this.
Proof.
  induction 1 as [|this sid _ IH|this _ IH|this _ IH
                  |this listeners openai text ic role _ IH].
  - exists []. reflexivity.
  - exact IH.
  - exists []. now rewrite resetContext_seeded.
  - exists []. unfold cleanup. cbn [userContext set_isProcessing].
    now rewrite resetContext_seeded.
  - now apply completion_seeded.
Qed.

(** * The claims *)

(** C1. A ["gptreply"] event is emitted at exactly the chunks where the
    trimmed partial buffer ends in the marker or the chunk carries
    [finish_reason === "stop"], the provider's signal of completion.  First
    part: the chunk loop of the source (which tests the fragment) is the
    loop that tests the buffer.  Second part: at any buffer that does not
    end in the marker (true of the empty buffer and kept by every step), a
    chunk that passes the test emits one event with the trimmed buffer and
    the current index, and the loop goes on with the buffer cleared (unless
    a listener throws on the event, which ends the loop); a chunk that does
    not pass emits nothing and the buffer keeps growing.  Third part: a
    marker inside the buffer that is followed by another visible character
    does not make the buffer pass the test. *)
Theorem C1_emission_rule listeners ic failure :
  (forall chunks completeResponse this,
      for_await listeners ic chunks failure completeResponse [] this =
      for_await_spec listeners ic chunks failure completeResponse [] this) /\
  (forall chunk choice others rest completeResponse partialResponse this,
      choices chunk = choice :: others ->
      ends_with_bullet partialResponse = false ->
      let buffer := partialResponse ++ content_of choice in
      let ev := gptreply (partialResponseIndex this) (trim buffer)
                         (callSid this) ic in
      (ends_with_bullet buffer || is_stop (finish_reason choice) = true ->
       for_await listeners ic (chunk :: rest) failure completeResponse
                 partialResponse this =
       match listeners ev with
       | Some e => (Thrown e, this, [Emit ev])
       | None =>
         let '(o, this', t) :=
           for_await listeners ic rest failure
             (completeResponse ++ content_of choice) []
             (set_partialResponseIndex (partialResponseIndex this + 1) this)
         in (o, this', Emit ev :: t)
       end) /\
      (ends_with_bullet buffer || is_stop (finish_reason choice) = false ->
       for_await listeners ic (chunk :: rest) failure completeResponse
                 partialResponse this =
       for_await listeners ic rest failure
                 (completeResponse ++ content_of choice) buffer this /\
       ends_with_bullet buffer = false)) /\
  (forall partialResponse a b c,
      last_nonws b = Some c -> c <> 8226%N ->
      ends_with_bullet (partialResponse ++ a ++ bullet ++ b) = false).
Proof.
  split; [|split].
  - intros chunks cr this. apply for_await_spec_eq, ends_with_bullet_nil.
  - intros chunk choice others rest cr pr this Hchoice Hpr buffer ev.
    subst buffer ev.
    rewrite (ends_with_bullet_app _ (content_of choice) Hpr).
    split; intros Htest; cbn [for_await]; rewrite Hchoice, Htest.
    + unfold bind, get, emit, modify.
      destruct (listeners _); [reflexivity|].
      destruct (for_await listeners ic rest failure _ [] _) as [[o this'] t].
      reflexivity.
    + split; [reflexivity|]. now apply orb_false_elim in Htest.
  - intros pr a b c Hb Hc. unfold ends_with_bullet.
    rewrite slice_last_trim, !last_nonws_app, Hb.
    unfold str_eqb, bullet.
    destruct (list_eq_dec N.eq_dec [c] [8226%N]) as [Heq|]; [|reflexivity].
    congruence.
Qed.

Lemma C1_emission_rule_witness :
  for_await all_return 7 example_separate None [] [] constructor =
  for_await_spec all_return 7 example_separate None [] [] constructor /\
  (for_await all_return 7 [chunk_of "c•" None; final_chunk] None (js "ab")
             (js "ab") constructor =
   let '(o, this', t) :=
     for_await all_return 7 [final_chunk] None (js "ab" ++ js "c•") []
               (set_partialResponseIndex 1 constructor) in
   (o, this', Emit (gptreply 0 (trim (js "ab" ++ js "c•")) None 7) :: t)) /\
  (for_await all_return 7 [chunk_of "a•b" None; final_chunk] None [] (js "x")
             constructor =
   for_await all_return 7 [final_chunk] None (js "a•b") (js "x" ++ js "a•b")
             constructor /\
   ends_with_bullet (js "x" ++ js "a•b") = false) /\
  ends_with_bullet (js "x" ++ js "a" ++ bullet ++ js "b") = false.
Proof.
  destruct (C1_emission_rule all_return 7 None) as (Hloop & Hstep & Hmid).
  split; [apply Hloop|]. split; [|split].
  - exact (proj1 (Hstep (chunk_of "c•" None) _ _ [final_chunk] (js "ab")
                        (js "ab") constructor eq_refl eq_refl) eq_refl).
  - exact (proj2 (Hstep (chunk_of "a•b" None) _ _ [final_chunk] []
                        (js "x") constructor eq_refl eq_refl) eq_refl).
  - apply (Hmid (js "x") (js "a") (js "b") 98%N); [reflexivity|discriminate].
Defined.

(** C2, as the source has it.  For the fragments ["ab"], ["c•"], ["def•"]
    with the stop signal on the last fragment, a call on an idle session
    emits exactly two events, with texts ["abc•"] and ["def•"]: each is the
    trimmed partial buffer, the marker included, and the buffer is cleared
    between them.  When the stop signal comes in a chunk of its own, a third
    event with the empty text follows. *)
Theorem C2_boundary_example listeners openai text ic role this :
  returning listeners ->
  isProcessing this = false ->
  0 < maxRetries this ->
  (openai 0 (sent_context text role this) = Stream example_inline None ->
   events (trace_of (completion listeners openai text ic role this)) =
   [ gptreply (partialResponseIndex this) (js "abc•") (callSid this) ic;
     gptreply (partialResponseIndex this + 1) (js "def•") (callSid this) ic ])
  /\
  (openai 0 (sent_context text role this) = Stream example_separate None ->
   events (trace_of (completion listeners openai text ic role this)) =
   [ gptreply (partialResponseIndex this) (js "abc•") (callSid this) ic;
     gptreply (partialResponseIndex this + 1) (js "def•") (callSid this) ic;
     gptreply (partialResponseIndex this + 1 + 1) [] (callSid this) ic ]).
Proof.
  intros Hl Hidle Hpos.
  split; intros Hstream;
    (rewrite (completion_run_success listeners Hl openai text ic role this 0);
     [|exact Hidle|exact Hpos|intros i Hi; lia|now rewrite Hstream]);
    cbv zeta; rewrite Hstream; cbn [trace_of snd retries_trace
                                    retries_index app attempt_segments events];
    rewrite events_Emit; reflexivity.
Qed.

Lemma C2_boundary_example_witness :
  events (trace_of (completion all_return (streams example_inline)
                               (js "hi") 7 user constructor)) =
  [ gptreply 0 (js "abc•") None 7; gptreply 1 (js "def•") None 7 ] /\
  events (trace_of (completion all_return (streams example_separate)
                               (js "hi") 7 user constructor)) =
  [ gptreply 0 (js "abc•") None 7; gptreply 1 (js "def•") None 7;
    gptreply 2 [] None 7 ].
Proof.
  split.
  - destruct (C2_boundary_example all_return
                (streams example_inline)
                (js "hi") 7 user constructor) as [H _];
      [intros ev; reflexivity|reflexivity|simpl; lia|].
    apply H. reflexivity.
  - destruct (C2_boundary_example all_return
                (streams example_separate)
                (js "hi") 7 user constructor) as [_ H];
      [intros ev; reflexivity|reflexivity|simpl; lia|].
    apply H. reflexivity.
Defined.

(** C2 as stated fails: the emitted texts are not ["abc"] and ["def"],
    whichever way the stop signal arrives. *)
Lemma C2_counterexample :
  map text_of
      (events (trace_of (completion all_return (streams example_inline)
                                    (js "hi") 7 user constructor)))
    <> [ Some (js "abc"); Some (js "def") ] /\
  map text_of
      (events (trace_of (completion all_return (streams example_separate)
                                    (js "hi") 7 user constructor)))
    <> [ Some (js "abc"); Some (js "def") ].
Proof. split; vm_compute; intros H; discriminate H. Qed.

(** C3, as the source has it.  Take a stream that ends without error, in
    which every chunk has a first choice and the last chunk alone carries
    the stop signal, and let [k] be the number of chunks whose trimmed
    fragment ends in the marker.  With listeners that return, a call on an
    idle session whose first request gets this stream emits exactly [k + 1]
    ["gptreply"] events, or exactly [k] when the chunk that carries the stop
    signal itself ends in the marker, and nothing else; their indices are
    consecutive from the session's current [partialResponseIndex]. *)
Theorem C3_segment_count listeners openai text ic role this body last :
  returning listeners ->
  isProcessing this = false ->
  0 < maxRetries this ->
  openai 0 (sent_context text role this) = Stream (body ++ [last]) None ->
  forallb plain body = true ->
  carries_stop last = true ->
  let evs :=
    events (trace_of (completion listeners openai text ic role this)) in
  List.length evs =
    marker_chunks (body ++ [last]) + (if ends_on_marker last then 0 else 1) /\
  forallb is_reply evs = true /\
  map index_of evs =
    map Some (seq (partialResponseIndex this) (List.length evs)).
Proof.
  intros Hl Hidle Hpos Hstream Hbody Hlast.
  rewrite (completion_run_success listeners Hl openai text ic role this 0);
    [|exact Hidle|exact Hpos|intros i Hi; lia
     |rewrite Hstream; now apply stream_error_plain].
  cbv zeta. rewrite Hstream.
  cbn [trace_of snd retries_trace retries_index app attempt_segments events].
  rewrite events_Emit. split; [|split].
  - now apply segments_count.
  - apply segments_replies.
  - apply segments_indices.
Qed.

Lemma C3_segment_count_witness :
  let evs :=
    events (trace_of (completion all_return
                        (streams ([chunk_of "a•b" None; chunk_of "c•" None]
                               ++ [final_chunk]))
                        (js "hi") 7 user constructor)) in
  List.length evs = 1 + 1 /\
  forallb is_reply evs = true /\
  map index_of evs = map Some (seq 0 (List.length evs)).
Proof.
  apply (C3_segment_count all_return
           (streams ([chunk_of "a•b" None; chunk_of "c•" None]
                               ++ [final_chunk]))
           (js "hi") 7 user constructor
           [chunk_of "a•b" None; chunk_of "c•" None] final_chunk);
    [intros ev; reflexivity|reflexivity|simpl; lia
    |reflexivity|reflexivity|reflexivity].
Defined.

(** C3 as stated fails.  One occurrence of the marker inside a fragment,
    stream not ending on a marker: one event, where two are announced.  One
    occurrence at the end of the streamed text, stop signal in a chunk of
    its own: two events, where one is announced. *)
Lemma C3_counterexample :
  (let chunks := [chunk_of "a•b" None; final_chunk] in
   let fired :=
     List.length
       (replies (trace_of (completion all_return (streams chunks)
                                      (js "hi") 7 user constructor))) in
   marker_occurrences chunks = 1 /\ announced_count chunks = 2 /\
   fired = 1 /\ fired <> announced_count chunks) /\
  (let chunks := [chunk_of "a•" None; final_chunk] in
   let fired :=
     List.length
       (replies (trace_of (completion all_return (streams chunks)
                                      (js "hi") 7 user constructor))) in
   marker_occurrences chunks = 1 /\ announced_count chunks = 1 /\
   fired = 2 /\ fired <> announced_count chunks).
Proof. vm_compute. repeat split; intros H; discriminate H. Qed.

(** C4, as the source has it.  [failed j] is the trace of the first [j]
    attempts when they fail: for each, the request, the segments its stream
    emitted before failing, then the wait of [2^n] seconds that follows
    failed attempt number [n].  On an idle session:

    - if the first [j] attempts fail and the next one succeeds ([j] below
      [maxRetries]), the call returns and its trace is [failed j], then the
      request of the successful attempt and its segments: [j + 1] requests,
      the waits [2^1], ..., [2^j] seconds each between a failed attempt and
      the next request, no ["error"] event; the transcript gains the user's
      message and exactly one assistant message, the text of the successful
      attempt;
    - if all [maxRetries] attempts fail, the trace is [failed (maxRetries - 1)],
      then the last request and its segments, then at once the ["error"]
      event with the last failure and the fallback reply: the last failure
      is thrown again without a wait and reaches the outer handler;
    - whatever the provider does, the trace is [failed k], one more request
      with its segments, and a tail without request or wait, for some [k]
      below [maxRetries];
    - with [maxRetries = 3] and two failures that emit nothing, the trace
      starts request, 2 s, request, 4 s, request, and no wait follows the
      third request, whether it succeeds or fails. *)
Theorem C4_retry_backoff listeners openai text ic role this :
  returning listeners ->
  isProcessing this = false ->
  let ctx := sent_context text role this in
  let sid := callSid this in
  let idx := partialResponseIndex this in
  let r := completion listeners openai text ic role this in
  let failed j := retries_trace openai ic sid ctx j 0 idx in
  let segs j :=
    attempt_segments ic sid (openai j ctx)
                     (retries_index openai ic sid ctx j 0 idx) in
  (forall j,
      j < maxRetries this ->
      (forall i, i < j -> attempt_error (openai i ctx) <> None) ->
      attempt_error (openai j ctx) = None ->
      outcome_of r = Returned tt /\
      trace_of r = failed j ++ Create ctx :: map Emit (segs j) /\
      requests (trace_of r) = repeat ctx (j + 1) /\
      timeouts (trace_of r) = map backoff (seq 1 j) /\
      errors (trace_of r) = [] /\
      userContext (state_of r) =
        userContext this ++
        [ {| role := role; content := text |};
          {| role := assistant; content := attempt_text (openai j ctx) |} ]) /\
  (0 < maxRetries this ->
   (forall i, i < maxRetries this -> attempt_error (openai i ctx) <> None) ->
   exists e,
     attempt_error (openai (maxRetries this - 1) ctx) = Some e /\
     trace_of r =
       failed (maxRetries this - 1) ++
       Create ctx :: map Emit (segs (maxRetries this - 1)) ++
       [ Emit (error_event e);
         Emit (gptreply
                 (retries_index openai ic sid ctx (maxRetries this - 1) 0 idx
                  + List.length (segs (maxRetries this - 1)))
                 fallbackResponse sid ic) ] /\
     requests (trace_of r) = repeat ctx (maxRetries this) /\
     timeouts (trace_of r) = map backoff (seq 1 (maxRetries this - 1)) /\
     errors (trace_of r) = [error_event e]) /\
  (0 < maxRetries this ->
   exists k tail,
     k < maxRetries this /\
     trace_of r = failed k ++ Create ctx :: map Emit (segs k) ++ tail /\
     requests tail = [] /\
     timeouts tail = [] /\
     requests (trace_of r) = repeat ctx (k + 1) /\
     timeouts (trace_of r) = map backoff (seq 1 k)) /\
  (maxRetries this = 3 ->
   (forall i, i < 2 ->
      attempt_error (openai i ctx) <> None /\ quiet (openai i ctx) = true) ->
   let third := attempt_segments ic sid (openai 2 ctx) idx in
   (attempt_error (openai 2 ctx) = None ->
    trace_of r =
      [ Create ctx; SetTimeout 2000; Create ctx; SetTimeout 4000; Create ctx ]
      ++ map Emit third) /\
   (forall e,
      attempt_error (openai 2 ctx) = Some e ->
      trace_of r =
        [ Create ctx; SetTimeout 2000; Create ctx; SetTimeout 4000;
          Create ctx ]
        ++ map Emit third
        ++ [ Emit (error_event e);
             Emit (gptreply (idx + List.length third) fallbackResponse
                            sid ic) ])) /\
  map backoff (seq 1 2) = [2000%N; 4000%N].
Proof.
  intros Hl Hidle ctx sid idx r failed segs.
  assert (Hsucc :
    forall j,
      j < maxRetries this ->
      (forall i, i < j -> attempt_error (openai i ctx) <> None) ->
      attempt_error (openai j ctx) = None ->
      outcome_of r = Returned tt /\
      trace_of r = failed j ++ Create ctx :: map Emit (segs j) /\
      requests (trace_of r) = repeat ctx (j + 1) /\
      timeouts (trace_of r) = map backoff (seq 1 j) /\
      errors (trace_of r) = [] /\
      userContext (state_of r) =
        userContext this ++
        [ {| role := role; content := text |};
          {| role := assistant; content := attempt_text (openai j ctx) |} ]).
  { intros j Hj Hfail Hok. subst r.
    rewrite (completion_run_success listeners Hl openai text ic role this j
               Hidle Hj Hfail Hok).
    cbv zeta. cbn [outcome_of state_of trace_of fst snd userContext].
    fold ctx. fold sid. fold idx. fold (failed j). fold (segs j).
    split; [reflexivity|]. split; [reflexivity|].
    split; [|split; [|split]].
    - unfold failed. rewrite requests_app, retries_trace_requests.
      cbn [requests]. rewrite requests_Emit, Nat.add_1_r. symmetry.
      apply repeat_cons.
    - unfold failed. rewrite timeouts_app, retries_trace_timeouts.
      cbn [timeouts]. now rewrite timeouts_Emit, app_nil_r.
    - unfold errors, failed, segs. rewrite events_app. cbn [events].
      rewrite events_Emit, filter_app.
      rewrite (forallb_filter_false is_reply _
                 (retries_trace_replies openai ic _ _ j 0 _)).
      apply forallb_filter_false, attempt_segments_replies.
    - unfold ctx, sent_context. now rewrite <- app_assoc. }
  assert (Hexh :
    0 < maxRetries this ->
    (forall i, i < maxRetries this -> attempt_error (openai i ctx) <> None) ->
    exists e,
      attempt_error (openai (maxRetries this - 1) ctx) = Some e /\
      trace_of r =
        failed (maxRetries this - 1) ++
        Create ctx :: map Emit (segs (maxRetries this - 1)) ++
        [ Emit (error_event e);
          Emit (gptreply
                  (retries_index openai ic sid ctx (maxRetries this - 1) 0 idx
                   + List.length (segs (maxRetries this - 1)))
                  fallbackResponse sid ic) ] /\
      requests (trace_of r) = repeat ctx (maxRetries this) /\
      timeouts (trace_of r) = map backoff (seq 1 (maxRetries this - 1)) /\
      errors (trace_of r) = [error_event e]).
  { intros Hpos Hfail.
    destruct (attempt_error (openai (maxRetries this - 1) ctx))
      as [e|] eqn:He;
      [|exfalso; apply (Hfail (maxRetries this - 1)); [lia|exact He]].
    exists e. split; [reflexivity|]. subst r.
    rewrite (completion_run_exhausted listeners Hl openai text ic role this e
               Hidle Hpos Hfail He).
    cbv zeta. cbn [trace_of snd].
    fold ctx. fold sid. fold idx. fold (failed (maxRetries this - 1)).
    fold (segs (maxRetries this - 1)).
    split; [reflexivity|]. split; [|split].
    - unfold failed. rewrite requests_app, retries_trace_requests.
      cbn [requests]. rewrite requests_app, requests_Emit.
      cbn [requests app].
      replace (repeat ctx (maxRetries this))
        with (repeat ctx (S (maxRetries this - 1))) by (f_equal; lia).
      symmetry. apply repeat_cons.
    - unfold failed. rewrite timeouts_app, retries_trace_timeouts.
      cbn [timeouts]. rewrite timeouts_app, timeouts_Emit.
      cbn [timeouts app]. now rewrite app_nil_r.
    - unfold errors, failed, segs. rewrite events_app. cbn [events].
      rewrite events_app, events_Emit, !filter_app. cbn [events].
      rewrite (forallb_filter_false is_reply _
                 (retries_trace_replies openai ic _ _ _ 0 _)).
      now rewrite (forallb_filter_false is_reply _
                     (attempt_segments_replies ic _ _ _)). }
  split; [exact Hsucc|]. split; [exact Hexh|].
  split; [|split; [|reflexivity]].
  - intros Hpos.
    destruct (first_success
                (fun i =>
                   match attempt_error (openai i ctx) with
                   | None => true
                   | Some _ => false
                   end) (maxRetries this))
      as [(j & Hj & Hbefore & Hpass)|Hnone].
    + exists j, []. split; [exact Hj|].
      destruct (Hsucc j Hj) as (_ & Htrace & Hreq & Hwait & _).
      * intros i Hi Hok. specialize (Hbefore i Hi). cbv beta in Hbefore.
        rewrite Hok in Hbefore. discriminate Hbefore.
      * cbv beta in Hpass. now destruct (attempt_error (openai j ctx)).
      * rewrite app_nil_r. repeat split; assumption.
    + destruct (Hexh Hpos) as (e & _ & Htrace & Hreq & Hwait & _).
      * intros i Hi Hok. specialize (Hnone i Hi). cbv beta in Hnone.
        rewrite Hok in Hnone. discriminate Hnone.
      * exists (maxRetries this - 1). eexists.
        split; [lia|]. split; [exact Htrace|].
        split; [reflexivity|]. split; [reflexivity|].
        split; [|exact Hwait]. rewrite Hreq. f_equal. lia.
  - intros Hmax Hquiet third.
    assert (Hfailed : failed 2 = quiet_retries ctx 2 0 /\
                      retries_index openai ic sid ctx 2 0 idx = idx).
    { apply retries_trace_quiet. intros i Hi. apply Hquiet. lia. }
    destruct Hfailed as [Hfailed Hindex].
    assert (Hsegs : segs 2 = third) by (unfold segs; now rewrite Hindex).
    split.
    + intros Hok. destruct (Hsucc 2) as (_ & Htrace & _);
        [lia|intros i Hi; now apply Hquiet|exact Hok|].
      rewrite Htrace, Hfailed, Hsegs. reflexivity.
    + intros e He.
      destruct Hexh as (e' & He' & Htrace & _); [lia| |].
      * intros i Hi. destruct (Nat.eq_dec i 2) as [->|Hne];
          [rewrite He; discriminate|apply Hquiet; lia].
      * rewrite Hmax in He', Htrace. cbn [Nat.sub] in He', Htrace.
        rewrite He in He'. injection He' as <-.
        rewrite Htrace, Hfailed, Hindex, Hsegs. reflexivity.
Qed.

Lemma C4_retry_backoff_witness :
  let openai := rejects_then 2 (Stream example_separate None) in
  let ctx := sent_context (js "hi") user constructor in
  let r := completion all_return openai (js "hi") 7 user constructor in
  trace_of r =
    [ Create ctx; SetTimeout 2000; Create ctx; SetTimeout 4000; Create ctx ]
    ++ map Emit (attempt_segments 7 None (openai 2 ctx) 0) /\
  outcome_of r = Returned tt /\
  userContext (state_of r) =
    userContext constructor ++
    [ {| role := user; content := js "hi" |};
      {| role := assistant; content := attempt_text (openai 2 ctx) |} ].
Proof.
  destruct (C4_retry_backoff all_return
              (rejects_then 2 (Stream example_separate None))
              (js "hi") 7 user constructor) as (Hsucc & _ & _ & Hthree & _);
    [intros ev; reflexivity|reflexivity|].
  split.
  - apply Hthree; [reflexivity| |reflexivity].
    intros i Hi. destruct i as [|[|i]]; [split| split |lia];
      try discriminate; reflexivity.
  - destruct (Hsucc 2) as (Hout & _ & _ & _ & _ & Hctx);
      [simpl; lia
      |intros i Hi; destruct i as [|[|i]]; [discriminate|discriminate|lia]
      |reflexivity|].
    split; [exact Hout|exact Hctx].
Defined.

(** C4 as stated fails: when all three attempts fail (three requests, the
    reported error is the one of the third), the call waits 2 s after the
    first and 4 s after the second only; the third failure is reported at
    once and no 8 s wait takes place. *)
Lemma C4_counterexample :
  let ctx := sent_context (js "hi") user constructor in
  let r := completion all_return always_rejects (js "hi") 7 user constructor in
  List.length (requests (trace_of r)) = 3 /\
  errors (trace_of r) = [error_event (APIError 2)] /\
  timeouts (trace_of r) = [2000%N; 4000%N] /\
  ~ In 8000%N (timeouts (trace_of r)) /\
  trace_of r =
    [ Create ctx; SetTimeout 2000; Create ctx; SetTimeout 4000; Create ctx;
      Emit (error_event (APIError 2));
      Emit (gptreply 0 fallbackResponse None 7) ].
Proof.
  vm_compute. repeat split. intros [H|[H|[]]]; discriminate H.
Qed.




(** C6. A call made while [isProcessing] is set returns at once: the state
    is unchanged (transcript included) and nothing is emitted or awaited. *)
Theorem C6_busy_call_is_noop listeners openai text ic role this :
  isProcessing this = true ->
  completion listeners openai text ic role this = (Returned tt, this, []).
Proof. apply completion_busy. Qed.

Lemma C6_busy_call_is_noop_witness :
  completion all_return always_rejects (js "again") 8 user
             (set_isProcessing true constructor) =
  (Returned tt, set_isProcessing true constructor, []).
Proof. apply C6_busy_call_is_noop. reflexivity. Defined.

(** C7 fails on the source: the fallback ["gptreply"] is emitted with the
    current [partialResponseIndex] and the counter is not incremented, so
    the first segment of the next call carries the same index.  A call with
    every request rejected, then a call that streams one fragment with the
    stop signal: two ["gptreply"] events, both with index 0. *)
Theorem C7_fallback_index_repeats :
  let r1 := completion all_return always_rejects (js "a") 1 user constructor in
  let r2 := completion all_return (streams [chunk_of "ok" (Some stop)])
                       (js "b") 2 user (state_of r1) in
  replies (trace_of r1) = [ gptreply 0 fallbackResponse None 1 ] /\
  partialResponseIndex (state_of r1) = 0 /\
  replies (trace_of r2) = [ gptreply 0 (js "ok") None 2 ] /\
  map index_of (replies (trace_of r1) ++ replies (trace_of r2)) =
    [ Some 0; Some 0 ].
Proof. vm_compute. repeat split. Qed.

(** C8. In every reachable state the transcript starts with the system
    message and the greeting; [setCallSid], [completion] and [cleanup] keep
    them there, and [resetContext] leaves exactly these two messages. *)
Theorem C8_transcript_seed this :
  reachable this ->
  seeded this /\
  (forall sid, seeded (setCallSid sid this)) /\
  (forall listeners openai text ic role,
      seeded (state_of (completion listeners openai text ic role this))) /\
  seeded (cleanup this) /\
  userContext (resetContext this) = seedContext /\
  List.length (userContext (resetContext this)) = 2.
Proof.
  intros Hreach. pose proof (reachable_seeded this Hreach) as Hseed.
  split; [exact Hseed|]. split; [intros sid; exact Hseed|].
  split; [intros; now apply completion_seeded|].
  split; [apply reachable_seeded; now constructor|].
  rewrite resetContext_seeded by exact Hseed. now split.
Qed.

Lemma C8_transcript_seed_witness :
  let this :=
    state_of (completion all_return (streams example_separate)
                         (js "hi") 7 user constructor) in
  seeded this /\
  (forall sid, seeded (setCallSid sid this)) /\
  (forall listeners openai text ic role,
      seeded (state_of (completion listeners openai text ic role this))) /\
  seeded (cleanup this) /\
  userContext (resetContext this) = seedContext /\
  List.length (userContext (resetContext this)) = 2.
Proof.
  apply C8_transcript_seed. apply reach_completion, reach_constructor.
Defined.

(** C9. A call that finds the session idle ends and leaves [isProcessing]
    false, whatever the provider and the listeners do: success, retries
    used up, a failure inside a stream, and an exception that leaves the
    outer handler (a listener that throws, an ["error"] event without a
    listener).  When no listener throws, the call returns normally. *)
Theorem C9_busy_released listeners openai text ic role this :
  isProcessing this = false ->
  let r := completion listeners openai text ic role this in
  outcome_of r <> OutOfFuel /\
  isProcessing (state_of r) = false /\
  (returning listeners -> outcome_of r = Returned tt).
Proof.
  intros Hidle. cbv zeta.
  destruct (completion_frame listeners openai text ic role this)
    as (H1 & H2 & _).
  split; [exact H1|]. split; [now apply H2|].
  intros Hl. rewrite (completion_idle listeners Hl) in * by exact Hidle.
  destruct (retry_loop listeners openai ic (maxRetries this) 0 false _)
    as [[[[]|e|] this'] t]; [reflexivity|reflexivity|].
  now contradiction H1.
Qed.

Lemma C9_busy_released_witness :
  let r := completion no_error_listener always_rejects (js "hi") 7 user
                      constructor in
  outcome_of r <> OutOfFuel /\
  isProcessing (state_of r) = false /\
  (returning no_error_listener -> outcome_of r = Returned tt).
Proof.
  apply (C9_busy_released no_error_listener always_rejects (js "hi") 7 user
           constructor).
  reflexivity.
Defined.

(** C10, as the source has it.  An attempt, failed or not, emits the
    segments of the chunks it received, as they arrive; it emits nothing
    when it is quiet, that is when the request is rejected or the stream
    fails before any chunk that ends in the marker or carries the stop
    signal.  When every failed attempt of a call is quiet, the trace up to
    the request and the segments of the successful attempt, or up to the
    ["error"] event and the fallback reply, consists of requests and
    backoff waits alone. *)
Theorem C10_quiet_failures listeners openai text ic role this :
  returning listeners ->
  isProcessing this = false ->
  (forall n s,
      events (trace_of (attempt listeners openai ic n s)) =
      attempt_segments ic (callSid s) (openai n (userContext s))
                       (partialResponseIndex s)) /\
  (forall e, quiet (Rejected e) = true) /\
  (forall j,
      j < maxRetries this ->
      (forall i, i < j ->
         attempt_error (openai i (sent_context text role this)) <> None /\
         quiet (openai i (sent_context text role this)) = true) ->
      attempt_error (openai j (sent_context text role this)) = None ->
      trace_of (completion listeners openai text ic role this) =
      quiet_retries (sent_context text role this) j 0 ++
      Create (sent_context text role this) ::
      map Emit (attempt_segments ic (callSid this)
                  (openai j (sent_context text role this))
                  (partialResponseIndex this))) /\
  (0 < maxRetries this ->
   (forall i, i < maxRetries this ->
      attempt_error (openai i (sent_context text role this)) <> None /\
      quiet (openai i (sent_context text role this)) = true) ->
   exists e,
     trace_of (completion listeners openai text ic role this) =
     quiet_retries (sent_context text role this) (maxRetries this - 1) 0 ++
     [ Create (sent_context text role this);
       Emit (error_event e);
       Emit (gptreply (partialResponseIndex this) fallbackResponse
                      (callSid this) ic) ]) /\
  (forall ctx j n, events (quiet_retries ctx j n) = []).
Proof.
  intros Hl Hidle. split; [|split; [reflexivity|split; [|split]]].
  - intros n s. rewrite (attempt_run listeners Hl). cbv zeta.
    destruct (attempt_error (openai n (userContext s)));
      cbn [trace_of snd events]; apply events_Emit.
  - intros j Hj Hfail Hok.
    rewrite (completion_run_success listeners Hl openai text ic role this j
               Hidle Hj (fun i Hi => proj1 (Hfail i Hi)) Hok).
    cbv zeta. cbn [trace_of snd].
    destruct (retries_trace_quiet openai ic (callSid this)
                (sent_context text role this) j 0 (partialResponseIndex this))
      as [Ht Hi]; [intros i Hi; apply Hfail; lia|].
    now rewrite Ht, Hi.
  - intros Hpos Hfail.
    destruct (attempt_error
                (openai (maxRetries this - 1) (sent_context text role this)))
      as [e|] eqn:He;
      [|exfalso; apply (proj1 (Hfail (maxRetries this - 1) ltac:(lia)));
        exact He].
    exists e.
    rewrite (completion_run_exhausted listeners Hl openai text ic role this e
               Hidle Hpos (fun i Hi => proj1 (Hfail i Hi)) He).
    cbv zeta. cbn [trace_of snd].
    destruct (retries_trace_quiet openai ic (callSid this)
                (sent_context text role this) (maxRetries this - 1) 0
                (partialResponseIndex this))
      as [Ht Hi]; [intros i Hi; apply Hfail; lia|].
    rewrite Ht, Hi, quiet_segments by (apply Hfail; lia).
    cbn [map List.length app]. now rewrite Nat.add_0_r.
  - intros ctx j n. apply quiet_retries_events.
Qed.

Lemma C10_quiet_failures_witness :
  let openai := rejects_then 2 (Stream example_inline None) in
  trace_of (completion all_return openai (js "hi") 7 user constructor) =
  quiet_retries (sent_context (js "hi") user constructor) 2 0 ++
  Create (sent_context (js "hi") user constructor) ::
  map Emit (attempt_segments 7 None
              (openai 2 (sent_context (js "hi") user constructor)) 0).
Proof.
  destruct (C10_quiet_failures all_return
              (rejects_then 2 (Stream example_inline None))
              (js "hi") 7 user constructor) as (_ & _ & H & _);
    [intros ev; reflexivity|reflexivity|].
  apply (H 2).
  - simpl; lia.
  - intros i Hi. destruct i as [|[|i]]; [split|split|lia];
      (discriminate || reflexivity).
  - reflexivity.
Defined.

(** C10 as stated fails: the first attempt streams ["Hi •"] and then fails;
    its segment is emitted before the 2 s wait and the second attempt. *)
Lemma C10_counterexample :
  let ctx := sent_context (js "hi") user constructor in
  attempt_error (fails_midstream 0 ctx) = Some (APIError 503) /\
  trace_of (completion all_return fails_midstream (js "hi") 7 user
                       constructor) =
  [ Create ctx;
    Emit (gptreply 0 (js "Hi •") None 7);
    SetTimeout 2000%N;
    Create ctx;
    Emit (gptreply 1 (js "Hi •") None 7);
    Emit (gptreply 2 [] None 7) ].
Proof. vm_compute. split; reflexivity. Qed.

(** * Further properties *)

(** ** Trimmed strings *)

Lemma trimStart_suffix s : exists p, s = p ++ trimStart s.
Proof.
  induction s as [|c s [p IH]]; [now exists []|]. simpl.
  destruct (isWhiteSpace c); [|now exists []].
  exists (c :: p). simpl. now rewrite <- IH.
Qed.

Lemma trimStart_starts s c r :
  trimStart s = c :: r -> isWhiteSpace c = false.
Proof.
  induction s as [|d s IH]; simpl; [discriminate|].
  destruct (isWhiteSpace d) eqn:Hd; [exact IH|].
  intros H. injection H as <- _. exact Hd.
Qed.

(** [trim] leaves no white space at either end. *)
Lemma trim_trimmed s : trimmed (trim s) = true.
Proof.
  unfold trimmed, trim, trimEnd. rewrite rev_involutive.
  apply andb_true_intro. split.
  - destruct (trimStart_suffix (rev (trimStart s))) as [p Hp].
    apply (f_equal (@rev N)) in Hp.
    rewrite rev_involutive, rev_app_distr in Hp.
    destruct (rev (trimStart (rev (trimStart s)))) as [|c r] eqn:Hr;
      [reflexivity|].
    simpl in Hp. now rewrite (trimStart_starts s c _ Hp).
  - destruct (trimStart (rev (trimStart s))) as [|c r] eqn:Hr; [reflexivity|].
    now rewrite (trimStart_starts _ c r Hr).
Qed.

(** A buffer whose last fragment ends in the marker ends in the marker,
    whatever was accumulated before. *)
Lemma ends_with_bullet_last partialResponse content :
  ends_with_bullet content = true ->
  slice_last (trim (partialResponse ++ content)) = bullet.
Proof.
  unfold ends_with_bullet. rewrite !slice_last_trim, last_nonws_app.
  destruct (last_nonws content) as [c|]; intros H.
  - unfold str_eqb in H.
    now destruct (list_eq_dec N.eq_dec [c] bullet) as [->|].
  - discriminate H.
Qed.

(** ** What every streamed event satisfies *)

Lemma segments_Forall (P : Event -> Prop) ic sid chunks :
  (forall i s, P (gptreply i (trim s) sid ic)) ->
  forall idx pr, Forall P (segments ic sid chunks idx pr).
Proof.
  intros HP. induction chunks as [|chunk rest IH]; intros idx pr; simpl;
    [constructor|].
  destruct (choices chunk) as [|choice others]; [constructor|].
  destruct (emits_at choice); [constructor; [apply HP|apply IH]|apply IH].
Qed.

Lemma attempt_segments_Forall (P : Event -> Prop) ic sid r idx :
  (forall i s, P (gptreply i (trim s) sid ic)) ->
  Forall P (attempt_segments ic sid r idx).
Proof.
  intros HP. destruct r; simpl; [constructor|now apply segments_Forall].
Qed.

Lemma retries_trace_Forall (P : Event -> Prop) openai ic sid ctx :
  (forall i s, P (gptreply i (trim s) sid ic)) ->
  forall j n idx, Forall P (events (retries_trace openai ic sid ctx j n idx)).
Proof.
  intros HP. induction j as [|j IH]; intros n idx; [constructor|].
  cbn [retries_trace events]. rewrite events_app, events_Emit.
  apply Forall_app. split; [now apply attempt_segments_Forall|].
  cbn [events]. apply IH.
Qed.

(** ** The shape of any call whose listeners return *)

Section Runs.

Variable listeners : Listeners.
Hypothesis listeners_return : returning listeners.

(** With [maxRetries] at 0 the loop body never runs. *)
Lemma completion_no_attempt openai text ic role this :
  isProcessing this = false ->
  maxRetries this = 0 ->
  completion listeners openai text ic role this =
  (Returned tt,
   {| userContext := sent_context text role this;
      partialResponseIndex := partialResponseIndex this;
      callSid := callSid this;
      isProcessing := false;
      maxRetries := maxRetries this |},
   []).
Proof.
  intros Hidle Hzero.
  rewrite (completion_idle listeners listeners_return) by exact Hidle.
  rewrite retry_loop_exit; [reflexivity|]. cbn. now rewrite Hzero.
Qed.

(** Any provider: no attempt is permitted, or some attempt is the first to
    succeed, or all permitted attempts fail.  [k] is the number of requests
    and [streamed] the events of the streams. *)
Lemma completion_shape openai text ic role this :
  isProcessing this = false ->
  let ctx := sent_context text role this in
  let r := completion listeners openai text ic role this in
  exists k streamed,
    k <= maxRetries this /\
    requests (trace_of r) = repeat ctx k /\
    timeouts (trace_of r) = map backoff (seq 1 (k - 1)) /\
    (forall P : Event -> Prop,
        (forall i s, P (gptreply i (trim s) (callSid this) ic)) ->
        Forall P streamed) /\
    map index_of streamed =
      map Some (seq (partialResponseIndex this) (List.length streamed)) /\
    outcome_of r = Returned tt /\
    partialResponseIndex (state_of r) =
      partialResponseIndex this + List.length streamed /\
    callSid (state_of r) = callSid this /\
    isProcessing (state_of r) = false /\
    maxRetries (state_of r) = maxRetries this /\
    ((k = 0 /\ maxRetries this = 0 /\
      events (trace_of r) = streamed /\ streamed = [] /\
      userContext (state_of r) = ctx) \/
     (exists j,
         k = j + 1 /\
         (forall i, i < j -> attempt_error (openai i ctx) <> None) /\
         attempt_error (openai j ctx) = None /\
         events (trace_of r) = streamed /\
         userContext (state_of r) =
           ctx ++ [ {| role := assistant;
                       content := attempt_text (openai j ctx) |} ]) \/
     (exists e,
         k = maxRetries this /\ 0 < k /\
         (forall i, i < k -> attempt_error (openai i ctx) <> None) /\
         attempt_error (openai (k - 1) ctx) = Some e /\
         events (trace_of r) =
           streamed ++
           [ error_event e;
             gptreply (partialResponseIndex this + List.length streamed)
                      fallbackResponse (callSid this) ic ] /\
         userContext (state_of r) = ctx)).
Proof.
  intros Hidle ctx. cbv zeta.
  assert (Hstreamed :
    forall j n,
      let pre := retries_trace openai ic (callSid this) ctx j 0
                               (partialResponseIndex this) in
      let idx := retries_index openai ic (callSid this) ctx j 0
                               (partialResponseIndex this) in
      let segs := attempt_segments ic (callSid this) (openai n ctx) idx in
      (forall P : Event -> Prop,
          (forall i s, P (gptreply i (trim s) (callSid this) ic)) ->
          Forall P (events pre ++ segs)) /\
      map index_of (events pre ++ segs) =
        map Some (seq (partialResponseIndex this)
                      (List.length (events pre ++ segs))) /\
      idx + List.length segs =
        partialResponseIndex this + List.length (events pre ++ segs)).
  { intros j n pre idx segs.
    assert (Hidx : idx = partialResponseIndex this + List.length (events pre))
      by apply retries_index_length.
    split; [|split].
    - intros P HP. apply Forall_app. split.
      + now apply retries_trace_Forall.
      + now apply attempt_segments_Forall.
    - rewrite length_app, map_app, seq_app, map_app.
      unfold pre at 1, segs at 1.
      rewrite retries_trace_indices, attempt_segments_indices.
      fold pre. fold segs. now rewrite <- Hidx.
    - rewrite length_app. lia. }
  destruct (Nat.eq_dec (maxRetries this) 0) as [Hzero|Hpos].
  { rewrite (completion_no_attempt openai text ic role this Hidle Hzero).
    exists 0, []. cbn. rewrite Nat.add_0_r.
    repeat split; try lia; try reflexivity; try assumption.
    - intros P HP. constructor.
    - left. repeat split. exact Hzero. }
  destruct (first_success
              (fun i =>
                 match attempt_error (openai i ctx) with
                 | None => true
                 | Some _ => false
                 end) (maxRetries this))
    as [(j & Hj & Hbefore & Hpass)|Hnone].
  - assert (Hfail : forall i, i < j -> attempt_error (openai i ctx) <> None).
    { intros i Hi Hok. specialize (Hbefore i Hi). cbv beta in Hbefore.
      rewrite Hok in Hbefore. discriminate Hbefore. }
    assert (Hok : attempt_error (openai j ctx) = None).
    { cbv beta in Hpass. now destruct (attempt_error (openai j ctx)). }
    rewrite (completion_run_success listeners listeners_return openai text ic
               role this j Hidle Hj Hfail Hok).
    cbv zeta. fold ctx.
    destruct (Hstreamed j j) as (HP & Hind & Hlen). cbv zeta in HP, Hind, Hlen.
    exists (j + 1), (events (retries_trace openai ic (callSid this) ctx j 0
                               (partialResponseIndex this)) ++
                     attempt_segments ic (callSid this) (openai j ctx)
                       (retries_index openai ic (callSid this) ctx j 0
                                      (partialResponseIndex this))).
    cbn [outcome_of state_of trace_of fst snd userContext partialResponseIndex
         callSid isProcessing maxRetries].
    split; [lia|]. split; [|split; [|split; [exact HP|split; [exact Hind|]]]].
    + rewrite requests_app, retries_trace_requests. cbn [requests].
      rewrite requests_Emit, Nat.add_1_r. symmetry. apply repeat_cons.
    + rewrite timeouts_app, retries_trace_timeouts. cbn [timeouts].
      rewrite timeouts_Emit, app_nil_r. f_equal. f_equal. lia.
    + split; [reflexivity|]. split; [exact Hlen|].
      split; [reflexivity|]. split; [reflexivity|]. split; [reflexivity|].
      right. left. exists j.
      split; [reflexivity|]. split; [exact Hfail|]. split; [exact Hok|].
      split; [|reflexivity].
      rewrite events_app. cbn [events]. now rewrite events_Emit.
  - assert (Hfail : forall i, i < maxRetries this ->
                              attempt_error (openai i ctx) <> None).
    { intros i Hi Hok. specialize (Hnone i Hi). cbv beta in Hnone.
      rewrite Hok in Hnone. discriminate Hnone. }
    destruct (attempt_error (openai (maxRetries this - 1) ctx))
      as [e|] eqn:He;
      [|exfalso; apply (Hfail (maxRetries this - 1)); [lia|exact He]].
    rewrite (completion_run_exhausted listeners listeners_return openai text
               ic role this e Hidle ltac:(lia) Hfail He).
    cbv zeta. fold ctx.
    destruct (Hstreamed (maxRetries this - 1) (maxRetries this - 1))
      as (HP & Hind & Hlen). cbv zeta in HP, Hind, Hlen.
    exists (maxRetries this),
      (events (retries_trace openai ic (callSid this) ctx
                 (maxRetries this - 1) 0 (partialResponseIndex this)) ++
       attempt_segments ic (callSid this) (openai (maxRetries this - 1) ctx)
         (retries_index openai ic (callSid this) ctx (maxRetries this - 1) 0
                        (partialResponseIndex this))).
    cbn [outcome_of state_of trace_of fst snd userContext partialResponseIndex
         callSid isProcessing maxRetries].
    split; [lia|]. split; [|split; [|split; [exact HP|split; [exact Hind|]]]].
    + rewrite requests_app, retries_trace_requests. cbn [requests].
      rewrite requests_app, requests_Emit. cbn [requests app].
      replace (repeat ctx (maxRetries this))
        with (repeat ctx (S (maxRetries this - 1))) by (f_equal; lia).
      symmetry. apply repeat_cons.
    + rewrite timeouts_app, retries_trace_timeouts. cbn [timeouts].
      rewrite timeouts_app, timeouts_Emit. cbn [timeouts app].
      now rewrite app_nil_r.
    + split; [reflexivity|]. split; [exact Hlen|].
      split; [reflexivity|]. split; [reflexivity|]. split; [reflexivity|].
      right. right. exists e.
      split; [reflexivity|]. split; [lia|]. split; [exact Hfail|].
      split; [exact He|]. split; [|reflexivity].
      rewrite events_app. cbn [events]. rewrite events_app, events_Emit.
      cbn [events]. now rewrite app_assoc, Hlen.
Qed.

End Runs.

(** ** Events of a call *)

(** After [setCallSid(sid)], every ["gptreply"] event of a call carries
    [sid] and the call's [interactionCount]: the streamed segments of all
    attempts and the fallback reply alike. *)
Theorem setCallSid_tags_events listeners openai text ic role sid this :
  returning listeners ->
  Forall (tagged (Some sid) ic)
         (events (trace_of (completion listeners openai text ic role
                                       (setCallSid sid this)))).
Proof.
  intros Hl. destruct (isProcessing (setCallSid sid this)) eqn:Hbusy.
  - rewrite completion_busy by exact Hbusy. constructor.
  - destruct (completion_shape listeners Hl openai text ic role
                (setCallSid sid this) Hbusy)
      as (k & streamed & _ & _ & _ & HP & _ & _ & _ & _ & _ & _ & Hcase).
    assert (Hstreamed : Forall (tagged (Some sid) ic) streamed)
      by (apply HP; intros i s; now split).
    destruct Hcase as [(_ & _ & -> & _)|[(j & _ & _ & _ & -> & _)
                                        |(e & _ & _ & _ & _ & -> & _)]];
      try exact Hstreamed.
    apply Forall_app. split; [exact Hstreamed|].
    repeat constructor.
Qed.

Lemma setCallSid_tags_events_witness :
  Forall (tagged (Some (js "CA123")) 7)
         (events (trace_of (completion all_return fails_midstream (js "hi") 7
                                       user
                                       (setCallSid (js "CA123") constructor)))).
Proof. apply setCallSid_tags_events. intros ev. reflexivity. Defined.

(** The text of every ["gptreply"] event of a call has no white space at
    either end: the segments are trimmed, and so is the fallback text. *)
Theorem gptreply_texts_trimmed listeners openai text ic role this :
  returning listeners ->
  Forall trimmed_text
         (events (trace_of (completion listeners openai text ic role this))).
Proof.
  intros Hl. destruct (isProcessing this) eqn:Hbusy.
  - rewrite completion_busy by exact Hbusy. constructor.
  - destruct (completion_shape listeners Hl openai text ic role this Hbusy)
      as (k & streamed & _ & _ & _ & HP & _ & _ & _ & _ & _ & _ & Hcase).
    assert (Hstreamed : Forall trimmed_text streamed)
      by (apply HP; intros i s; apply trim_trimmed).
    destruct Hcase as [(_ & _ & -> & _)|[(j & _ & _ & _ & -> & _)
                                        |(e & _ & _ & _ & _ & -> & _)]];
      try exact Hstreamed.
    apply Forall_app. split; [exact Hstreamed|].
    repeat constructor.
Qed.

Lemma gptreply_texts_trimmed_witness :
  Forall trimmed_text
         (events (trace_of (completion all_return
                              (streams [chunk_of "  Hi there •  " None;
                                        chunk_of " bye " (Some stop)])
                              (js "hi") 7 user constructor))).
Proof. apply gptreply_texts_trimmed. intros ev. reflexivity. Defined.

(** The indices of the replies of one call. *)
Lemma completion_indices listeners openai text ic role this :
  returning listeners ->
  let r := completion listeners openai text ic role this in
  map index_of (replies (trace_of r)) =
    map Some (seq (partialResponseIndex this)
                  (List.length (replies (trace_of r)))) /\
  (errors (trace_of r) = [] ->
   partialResponseIndex (state_of r) =
     partialResponseIndex this + List.length (replies (trace_of r))).
Proof.
  intros Hl. cbv zeta. destruct (isProcessing this) eqn:Hbusy.
  - rewrite completion_busy by exact Hbusy. cbn. split; [reflexivity|lia].
  - destruct (completion_shape listeners Hl openai text ic role this Hbusy)
      as (k & streamed & _ & _ & _ & HP & Hind & _ & Hidx & _ & _ & _ & Hcase).
    assert (Hrep : forallb is_reply streamed = true).
    { apply forallb_forall. apply Forall_forall.
      apply (HP (fun ev => is_reply ev = true)). reflexivity. }
    assert (Hkeep : filter is_reply streamed = streamed).
    { clear - Hrep. induction streamed as [|ev l IH]; [reflexivity|].
      simpl in *. apply andb_prop in Hrep as [Hev Hl].
      now rewrite Hev, IH. }
    unfold replies, errors.
    destruct Hcase as [(_ & _ & Hev & _)|[(j & _ & _ & _ & Hev & _)
                                         |(e & _ & _ & _ & _ & Hev & _)]];
      rewrite Hev.
    + rewrite Hkeep. split; [exact Hind|]. intros _. exact Hidx.
    + rewrite Hkeep. split; [exact Hind|]. intros _. exact Hidx.
    + rewrite !filter_app, Hkeep. cbn [filter is_reply negb].
      split.
      * rewrite length_app, map_app, seq_app, map_app, Hind. reflexivity.
      * rewrite (forallb_filter_false is_reply _ Hrep). discriminate.
Qed.

(** With listeners that return: within one call the ["gptreply"] events
    carry consecutive indices from the session's counter, across failed
    attempts, the attempt that succeeds and the fallback reply, whatever
    the provider does; when the call emits no ["error"] event, the counter
    ends just after the last index, so that the next call goes on with the
    numbering. *)
Theorem indices_within_call listeners openai text ic role this :
  returning listeners ->
  let r := completion listeners openai text ic role this in
  map index_of (replies (trace_of r)) =
    map Some (seq (partialResponseIndex this)
                  (List.length (replies (trace_of r)))) /\
  (errors (trace_of r) = [] ->
   partialResponseIndex (state_of r) =
     partialResponseIndex this + List.length (replies (trace_of r))).
Proof. apply completion_indices. Qed.

Lemma indices_within_call_witness :
  let r := completion all_return fails_midstream (js "hi") 7 user
                      constructor in
  map index_of (replies (trace_of r)) =
    map Some (seq 0 (List.length (replies (trace_of r)))) /\
  (errors (trace_of r) = [] ->
   partialResponseIndex (state_of r) =
     0 + List.length (replies (trace_of r))).
Proof.
  apply (indices_within_call all_return fails_midstream (js "hi") 7 user
           constructor).
  intros ev. reflexivity.
Defined.

(** ** The transcript *)

(** With listeners that return: a call on an idle session records the
    user's message, and after it one assistant message exactly when one of
    the permitted requests is answered by a stream that runs to its end
    without error, every chunk with a first choice; its content is the
    concatenation of the fragments of the first such stream.  Nothing else
    is added. *)
Theorem transcript_growth listeners openai text ic role this :
  returning listeners ->
  isProcessing this = false ->
  let ctx := sent_context text role this in
  let r := completion listeners openai text ic role this in
  (userContext (state_of r) = ctx /\
   forall i, i < maxRetries this -> attempt_error (openai i ctx) <> None) \/
  (exists j,
      j < maxRetries this /\
      (forall i, i < j -> attempt_error (openai i ctx) <> None) /\
      attempt_error (openai j ctx) = None /\
      userContext (state_of r) =
        ctx ++ [ {| role := assistant;
                    content := attempt_text (openai j ctx) |} ]).
Proof.
  intros Hl Hidle. cbv zeta.
  destruct (completion_shape listeners Hl openai text ic role this Hidle)
    as (k & streamed & Hk & _ & _ & _ & _ & _ & _ & _ & _ & _ & Hcase).
  destruct Hcase as [(_ & Hzero & _ & _ & Hctx)
                    |[(j & -> & Hfail & Hok & _ & Hctx)
                     |(e & -> & _ & Hfail & _ & _ & Hctx)]].
  - left. split; [exact Hctx|]. intros i Hi. lia.
  - right. exists j. repeat split; try assumption. lia.
  - left. split; assumption.
Qed.

Lemma transcript_growth_witness :
  let openai := rejects_then 1 (Stream example_inline None) in
  let ctx := sent_context (js "hi") user constructor in
  let r := completion all_return openai (js "hi") 7 user constructor in
  (userContext (state_of r) = ctx /\
   forall i, i < 3 -> attempt_error (openai i ctx) <> None) \/
  (exists j,
      j < 3 /\
      (forall i, i < j -> attempt_error (openai i ctx) <> None) /\
      attempt_error (openai j ctx) = None /\
      userContext (state_of r) =
        ctx ++ [ {| role := assistant;
                    content := attempt_text (openai j ctx) |} ]).
Proof.
  apply (transcript_growth all_return
           (rejects_then 1 (Stream example_inline None)) (js "hi") 7 user
           constructor).
  - intros ev. reflexivity.
  - reflexivity.
Defined.

(** The user's message is recorded whatever the provider and the listeners
    do, also when the call ends with an exception. *)
Theorem user_message_recorded listeners openai text ic role this :
  isProcessing this = false ->
  exists extra,
    userContext (state_of (completion listeners openai text ic role this)) =
    userContext this ++ {| role := role; content := text |} :: extra.
Proof.
  intros Hidle. unfold completion. rewrite Hidle.
  unfold try_finally. rewrite try_catch_modify. unfold push.
  rewrite try_catch_modify.
  match goal with
  | |- context [try_catch ?m ?h ?s] =>
    assert (Hbody : steady (try_catch m h));
      [|specialize (Hbody s); set (this1 := s) in *;
        destruct (try_catch m h this1) as [[o s'] t]]
  end.
  { apply steady_try_catch; [apply steady_retry_loop|].
    intros e. apply steady_bind; [apply steady_emit|intros _].
    apply steady_bind; [apply steady_get|intros s]. apply steady_emit. }
  cbn [outcome_of state_of fst snd] in Hbody.
  destruct Hbody as (Hout & _ & _ & _ & (extra & Hctx) & _).
  subst this1. cbn in Hctx. exists extra.
  destruct o as [[]|e|]; [| |congruence]; cbn;
    rewrite Hctx; now rewrite <- app_assoc.
Qed.

Lemma user_message_recorded_witness :
  exists extra,
    userContext (state_of (completion no_error_listener always_rejects
                                      (js "hi") 7 user constructor)) =
    userContext constructor ++ {| role := user; content := js "hi" |} :: extra.
Proof. apply user_message_recorded. reflexivity. Defined.

(** The chunk loop does not touch the transcript, whatever the listeners
    do. *)
Lemma for_await_context listeners ic chunks failure :
  forall completeResponse partialResponse this,
    userContext
      (state_of (for_await listeners ic chunks failure completeResponse
                           partialResponse this))
    = userContext this.
Proof.
  induction chunks as [|chunk rest IH]; intros cr pr this; cbn [for_await].
  - now destruct failure.
  - destruct (choices chunk) as [|choice others]; [reflexivity|].
    destruct (_ || _); [|apply IH].
    rewrite bind_get. unfold bind at 1, emit.
    destruct (listeners _); [reflexivity|].
    unfold bind, modify.
    specialize (IH (cr ++ content_of choice) []
                   (set_partialResponseIndex (partialResponseIndex this + 1)
                                             this)).
    destruct (for_await listeners ic rest failure _ _ _) as [[o s] t].
    exact IH.
Qed.

(** An attempt pushes one message when it returns and none otherwise. *)
Lemma attempt_context listeners openai ic n this :
  match attempt listeners openai ic n this with
  | (Returned _, s, _) =>
    List.length (userContext s) = List.length (userContext this) + 1
  | (_, s, _) => userContext s = userContext this
  end.
Proof.
  unfold attempt. rewrite bind_get. unfold bind at 1, create.
  destruct (openai n (userContext this)) as [e|chunks failure];
    [reflexivity|].
  pose proof (for_await_context listeners ic chunks failure [] [] this) as H.
  unfold bind, push, modify.
  destruct (for_await listeners ic chunks failure [] [] this)
    as [[[cr|e|] s] t]; cbn in *; rewrite ?length_app, ?H; reflexivity.
Qed.

(** The retry loop pushes at most one message: the attempt that pushes
    ends the loop. *)
Lemma retry_loop_context listeners openai ic :
  forall fuel n success this,
    List.length
      (userContext
         (state_of (retry_loop listeners openai ic fuel n success this)))
    <= List.length (userContext this) + 1.
Proof.
  induction fuel as [|fuel IH]; intros n success this;
    (destruct ((n <? maxRetries this) && negb success) eqn:Hcond;
     [|rewrite retry_loop_exit by exact Hcond; cbn; lia]).
  - cbn [retry_loop]. rewrite bind_get, Hcond. cbn. lia.
  - rewrite retry_loop_unfold by exact Hcond.
    unfold bind at 1, try_catch, bind at 1.
    pose proof (attempt_context listeners openai ic n this) as Hattempt.
    destruct (attempt listeners openai ic n this) as [[[[]|e|] s] t].
    + unfold ret. cbn [fst snd].
      rewrite retry_loop_exit by apply andb_false_r. cbn. lia.
    + rewrite bind_get.
      destruct (n + 1 =? maxRetries s).
      * unfold throw. cbn. rewrite Hattempt. lia.
      * unfold bind, sleep, ret. cbn [fst snd].
        specialize (IH (n + 1) success s).
        destruct (retry_loop listeners openai ic fuel (n + 1) success s)
          as [[o s'] t']. cbn in *. rewrite Hattempt in IH. exact IH.
    + cbn. rewrite Hattempt. lia.
Qed.

(** A call adds at most two messages, whatever the provider and the
    listeners do. *)
Lemma completion_length listeners openai text ic role this :
  List.length
    (userContext (state_of (completion listeners openai text ic role this)))
  <= List.length (userContext this) + 2.
Proof.
  destruct (isProcessing this) eqn:Hbusy.
  - rewrite completion_busy by exact Hbusy. cbn. lia.
  - unfold completion. rewrite Hbusy. unfold try_finally.
    rewrite try_catch_modify. unfold push. rewrite try_catch_modify.
    unfold try_catch. rewrite bind_get.
    match goal with
    | |- context [retry_loop listeners openai ic ?fuel 0 false ?s] =>
      pose proof (retry_loop_context listeners openai ic fuel 0 false s)
        as Hloop;
      destruct (retry_loop listeners openai ic fuel 0 false s)
        as [[[[]|e|] s'] t]
    end; cbn [state_of fst snd userContext set_userContext set_isProcessing]
           in Hloop; rewrite length_app in Hloop; cbn [List.length] in Hloop.
    + cbn. lia.
    + unfold bind at 1, emit at 1.
      destruct (listeners (error_event e)); [cbn; lia|].
      rewrite bind_get. unfold emit.
      destruct (listeners _); cbn; lia.
    + cbn. lia.
Qed.

(** Calls in a row add at most two messages each, whatever the provider
    and the listeners do in each of them; hence after a reset,
    [shouldResetContext] stays false for at least the next four calls. *)
Theorem reset_lasts_four_calls calls this :
  List.length (userContext (completions calls this))
    <= List.length (userContext this) + 2 * List.length calls /\
  (List.length calls <= 4 ->
   shouldResetContext (completions calls (resetContext this)) = false).
Proof.
  assert (Hlen : forall s,
             List.length (userContext (completions calls s))
             <= List.length (userContext s) + 2 * List.length calls).
  { induction calls as [|c rest IH]; intros s; [cbn; lia|].
    cbn [completions List.length]. etransitivity; [apply IH|].
    pose proof (completion_length (call_listeners c) (call_openai c)
                  (call_text c) (call_interactionCount c) (call_role c) s).
    lia. }
  split; [apply Hlen|]. intros Hfour.
  unfold shouldResetContext. apply Nat.ltb_ge.
  etransitivity; [apply Hlen|].
  assert (List.length (userContext (resetContext this)) <= 2)
    by (unfold resetContext; cbn [userContext set_partialResponseIndex
                                  set_userContext];
        apply firstn_le_length).
  lia.
Qed.

Lemma reset_lasts_four_calls_witness :
  let ok := {| call_listeners := all_return;
               call_openai := streams example_inline;
               call_text := js "hi";
               call_interactionCount := 7;
               call_role := user |} in
  let failing := {| call_listeners := no_error_listener;
                    call_openai := fails_midstream;
                    call_text := js "again";
                    call_interactionCount := 8;
                    call_role := user |} in
  let calls := [ok; failing; ok; failing] in
  List.length calls <= 4 /\
  shouldResetContext (completions calls (resetContext constructor)) = false.
Proof.
  split; [simpl; lia|].
  apply (reset_lasts_four_calls
           [ {| call_listeners := all_return;
                call_openai := streams example_inline;
                call_text := js "hi";
                call_interactionCount := 7;
                call_role := user |};
             {| call_listeners := no_error_listener;
                call_openai := fails_midstream;
                call_text := js "again";
                call_interactionCount := 8;
                call_role := user |};
             {| call_listeners := all_return;
                call_openai := streams example_inline;
                call_text := js "hi";
                call_interactionCount := 7;
                call_role := user |};
             {| call_listeners := no_error_listener;
                call_openai := fails_midstream;
                call_text := js "again";
                call_interactionCount := 8;
                call_role := user |} ] constructor).
  simpl; lia.
Defined.

(** A call on an idle session whose first attempt succeeds adds exactly two
    messages and leaves the session idle. *)
Lemma completion_first_success listeners openai text ic role this :
  returning listeners ->
  isProcessing this = false ->
  0 < maxRetries this ->
  attempt_error (openai 0 (sent_context text role this)) = None ->
  let r := completion listeners openai text ic role this in
  List.length (userContext (state_of r)) = List.length (userContext this) + 2
  /\ isProcessing (state_of r) = false
  /\ maxRetries (state_of r) = maxRetries this.
Proof.
  intros Hl Hidle Hpos Hok.
  rewrite (completion_run_success listeners Hl openai text ic role this 0
             Hidle Hpos ltac:(intros i Hi; lia) Hok).
  cbn. unfold sent_context. rewrite !length_app. cbn. repeat split. lia.
Qed.

(** After a reset of a seeded session, calls that each succeed at the first
    attempt add two messages each: [shouldResetContext] turns true with the
    fifth such call and not before. *)
Theorem fifth_call_asks_for_reset calls this :
  seeded this ->
  isProcessing this = false ->
  0 < maxRetries this ->
  Forall (fun c => returning (call_listeners c) /\
                   forall messages,
                     attempt_error (call_openai c 0 messages) = None) calls ->
  List.length (userContext (completions calls (resetContext this))) =
    2 + 2 * List.length calls /\
  (shouldResetContext (completions calls (resetContext this)) = true <->
   5 <= List.length calls).
Proof.
  intros Hseed Hidle Hpos Hcalls.
  assert (Hlen : forall s,
             isProcessing s = false -> 0 < maxRetries s ->
             List.length (userContext (completions calls s)) =
             List.length (userContext s) + 2 * List.length calls).
  { induction Hcalls as [|c rest [Hc Hok] _ IH]; intros s Hs Hm; [cbn; lia|].
    cbn [completions List.length].
    destruct (completion_first_success (call_listeners c) (call_openai c)
                (call_text c) (call_interactionCount c) (call_role c) s
                Hc Hs Hm (Hok _)) as (H1 & H2 & H3).
    rewrite IH; [lia|exact H2|lia]. }
  assert (Hreset : List.length (userContext (resetContext this)) = 2)
    by (now rewrite (resetContext_seeded this Hseed)).
  specialize (Hlen (resetContext this) Hidle Hpos). rewrite Hreset in Hlen.
  split; [exact Hlen|].
  unfold shouldResetContext. rewrite Nat.ltb_lt, Hlen. lia.
Qed.

Lemma fifth_call_asks_for_reset_witness :
  let c := {| call_listeners := all_return;
              call_openai := streams example_inline;
              call_text := js "hi";
              call_interactionCount := 7;
              call_role := user |} in
  let calls := [c; c; c; c; c] in
  List.length (userContext (completions calls (resetContext constructor))) =
    2 + 2 * List.length calls /\
  (shouldResetContext (completions calls (resetContext constructor)) = true
   <-> 5 <= List.length calls).
Proof.
  apply fifth_call_asks_for_reset.
  - exists []. reflexivity.
  - reflexivity.
  - simpl; lia.
  - repeat constructor; intros; reflexivity.
Defined.

(** ** The chunk loop *)

Lemma segments_before_stop ic sid chunks :
  forallb plain chunks = true ->
  forall idx pr, Forall ends_in_marker (segments ic sid chunks idx pr).
Proof.
  induction chunks as [|chunk rest IH]; intros Hplain idx pr; simpl;
    [constructor|].
  simpl in Hplain. apply andb_prop in Hplain as [Hc Hrest].
  unfold plain in Hc. destruct (choices chunk) as [|choice others];
    [constructor|].
  apply negb_true_iff in Hc. unfold emits_at. rewrite Hc, orb_false_r.
  destruct (ends_with_bullet (content_of choice)) eqn:Hb; [|now apply IH].
  constructor; [|now apply IH].
  cbn. now apply ends_with_bullet_last.
Qed.

(** Every segment emitted by chunks that do not carry the stop signal ends
    with the marker, whatever the buffer held before. *)
Theorem segments_before_stop_end_in_marker
    listeners ic chunks failure completeResponse partialResponse this :
  returning listeners ->
  forallb plain chunks = true ->
  Forall ends_in_marker
         (events (trace_of (for_await listeners ic chunks failure
                                      completeResponse partialResponse this))).
Proof.
  intros Hl Hplain. rewrite (for_await_run listeners Hl). cbv zeta.
  cbn [trace_of snd]. rewrite events_Emit. now apply segments_before_stop.
Qed.

Lemma segments_before_stop_end_in_marker_witness :
  Forall ends_in_marker
         (events (trace_of (for_await all_return 7
                              [chunk_of "Hi •" None; chunk_of "a•b" None;
                               chunk_of " c • " None]
                              None [] (js "x") constructor))).
Proof.
  apply segments_before_stop_end_in_marker;
    [intros ev; reflexivity|reflexivity].
Defined.

Lemma segments_app ic sid pre :
  forallb has_choice pre = true ->
  forall rest idx pr,
    exists idx' pr',
      segments ic sid (pre ++ rest) idx pr =
      segments ic sid pre idx pr ++ segments ic sid rest idx' pr'.
Proof.
  induction pre as [|chunk pre IH]; intros Hpre rest idx pr.
  - exists idx, pr. reflexivity.
  - simpl in Hpre. apply andb_prop in Hpre as [Hc Hpre].
    unfold has_choice in Hc. simpl.
    destruct (choices chunk) as [|choice others]; [discriminate|].
    destruct (emits_at choice).
    + destruct (IH Hpre rest (idx + 1) []) as (idx' & pr' & H).
      exists idx', pr'. now rewrite H.
    + apply IH. exact Hpre.
Qed.

Lemma stream_error_missing_choice pre bad post failure :
  forallb has_choice pre = true ->
  choices bad = [] ->
  stream_error (pre ++ bad :: post) failure = Some TypeError.
Proof.
  intros Hpre Hbad. induction pre as [|chunk pre IH]; simpl.
  - now rewrite Hbad.
  - simpl in Hpre. apply andb_prop in Hpre as [Hc Hpre].
    unfold has_choice in Hc. destruct (choices chunk); [discriminate|].
    now apply IH.
Qed.

(** A chunk without a first choice ends the attempt with a [TypeError]:
    the segments of the chunks before it have been emitted, the chunks
    after it and the way the stream would have ended play no part, and no
    assistant message is recorded. *)
Theorem chunk_without_choices
    listeners openai ic n this pre bad post failure :
  returning listeners ->
  openai n (userContext this) = Stream (pre ++ bad :: post) failure ->
  forallb has_choice pre = true ->
  choices bad = [] ->
  let r := attempt listeners openai ic n this in
  outcome_of r = Thrown TypeError /\
  events (trace_of r) =
    segments ic (callSid this) pre (partialResponseIndex this) [] /\
  userContext (state_of r) = userContext this.
Proof.
  intros Hl Hstream Hpre Hbad. cbv zeta.
  rewrite (attempt_run listeners Hl). cbv zeta. rewrite Hstream.
  cbn [attempt_error attempt_segments].
  rewrite (stream_error_missing_choice pre bad post failure Hpre Hbad).
  cbn [outcome_of state_of trace_of fst snd events userContext
       set_partialResponseIndex].
  rewrite events_Emit. repeat split.
  destruct (segments_app ic (callSid this) pre Hpre (bad :: post)
              (partialResponseIndex this) []) as (idx' & pr' & ->).
  cbn [segments]. rewrite Hbad. apply app_nil_r.
Qed.

Lemma chunk_without_choices_witness :
  let openai : Provider :=
    fun _ _ => Stream ([chunk_of "Hi •" None] ++
                       {| choices := [] |} :: [chunk_of "there" (Some stop)])
                      None in
  let r := attempt all_return openai 7 0 constructor in
  outcome_of r = Thrown TypeError /\
  events (trace_of r) = segments 7 None [chunk_of "Hi •" None] 0 [] /\
  userContext (state_of r) = userContext constructor.
Proof.
  apply (chunk_without_choices all_return _ 7 0 constructor
           [chunk_of "Hi •" None] {| choices := [] |}
           [chunk_of "there" (Some stop)] None);
    [intros ev; reflexivity|reflexivity|reflexivity|reflexivity].
Defined.

(** ** Retries *)

(** Between calls a session is idle and its retry limit is the
    constructor's. *)
Lemma reachable_config this :
  reachable this -> isProcessing this = false /\ maxRetries this = 3.
Proof.
  induction 1 as [|this sid _ IH|this _ IH|this _ IH
                  |this listeners openai text ic role _ IH].
  - now split.
  - exact IH.
  - exact IH.
  - split; [reflexivity|apply IH].
  - destruct IH as [Hidle Hmax].
    destruct (completion_frame listeners openai text ic role this)
      as (_ & H2 & _ & H4 & _).
    split; [now apply H2|congruence].
Qed.

(** The retry limit is the constructor's 3 and no method changes it,
    whatever the provider and the listeners do.  A call made while the
    session is idle, with this limit and listeners that return, makes
    between one and three requests, all with the same messages, and waits at
    most six seconds in all between them. *)
Theorem retries_bounded listeners openai text ic role this :
  (maxRetries constructor = 3 /\
   (forall sid, maxRetries (setCallSid sid this) = maxRetries this) /\
   maxRetries (resetContext this) = maxRetries this /\
   maxRetries (cleanup this) = maxRetries this /\
   (forall listeners' openai' text' ic' role',
       maxRetries
         (state_of (completion listeners' openai' text' ic' role' this))
       = maxRetries this)) /\
  (isProcessing this = false ->
   maxRetries this = 3 ->
   returning listeners ->
   let r := completion listeners openai text ic role this in
   exists k,
     1 <= k <= 3 /\
     requests (trace_of r) = repeat (sent_context text role this) k /\
     (total_wait (trace_of r) <= 6000)%N).
Proof.
  split.
  - split; [reflexivity|]. split; [reflexivity|]. split; [reflexivity|].
    split; [reflexivity|]. intros listeners' openai' text' ic' role'.
    now destruct (completion_frame listeners' openai' text' ic' role' this)
      as (_ & _ & _ & Hmax & _).
  - intros Hidle Hmax Hl. cbv zeta.
    destruct (completion_shape listeners Hl openai text ic role this Hidle)
      as (k & streamed & Hk & Hreq & Hwait & _ & _ & _ & _ & _ & _ & _
          & Hcase).
    exists k. split; [|split; [exact Hreq|]].
    + destruct Hcase as [(_ & Hzero & _)|[(j & -> & _)|(e & -> & _)]]; lia.
    + unfold total_wait. rewrite Hwait.
      destruct k as [|[|[|[|k]]]]; [| | | |lia]; vm_compute; discriminate.
Qed.

Lemma retries_bounded_witness :
  let r := completion all_return always_rejects (js "hi") 7 user
                      constructor in
  exists k,
    1 <= k <= 3 /\
    requests (trace_of r) = repeat (sent_context (js "hi") user constructor) k
    /\ (total_wait (trace_of r) <= 6000)%N.
Proof.
  apply (retries_bounded all_return always_rejects (js "hi") 7 user
           constructor).
  - reflexivity.
  - reflexivity.
  - intros ev. reflexivity.
Defined.

(** Every request of a reachable session carries the system message and
    the greeting first and the new message last. *)
Theorem requests_carry_seed listeners openai text ic role this :
  reachable this ->
  returning listeners ->
  Forall (fun messages =>
            exists history,
              messages =
              seedContext ++ history ++ [ {| role := role; content := text |} ])
         (requests (trace_of (completion listeners openai text ic role this))).
Proof.
  intros Hreach Hl.
  destruct (reachable_config this Hreach) as [Hidle _].
  destruct (reachable_seeded this Hreach) as [history Hseed].
  destruct (completion_shape listeners Hl openai text ic role this Hidle)
    as (k & streamed & _ & -> & _).
  apply Forall_forall. intros messages Hin. apply repeat_spec in Hin.
  subst messages. exists history. unfold sent_context.
  now rewrite Hseed, app_assoc.
Qed.

Lemma requests_carry_seed_witness :
  Forall (fun messages =>
            exists history,
              messages =
              seedContext ++ history
                ++ [ {| role := user; content := js "again" |} ])
         (requests
            (trace_of
               (completion all_return always_rejects (js "again") 8 user
                  (state_of (completion all_return (streams example_inline)
                                        (js "hi") 7 user constructor))))).
Proof.
  apply requests_carry_seed.
  - apply reach_completion, reach_constructor.
  - intros ev. reflexivity.
Defined.

(** ** Reset and cleanup *)

(** On an idle session, with no call in flight: after [cleanup()] the
    provider is sent the system message, the greeting and the new message
    only, in at least one request, whatever the history was, and the reply
    index starts again at 0, whatever it was. *)
Theorem cleanup_forgets_history listeners openai text ic role this :
  seeded this ->
  isProcessing this = false ->
  0 < maxRetries this ->
  returning listeners ->
  let r := completion listeners openai text ic role (cleanup this) in
  (exists k,
      0 < k /\
      requests (trace_of r) =
        repeat (seedContext ++ [ {| role := role; content := text |} ]) k) /\
  map index_of (replies (trace_of r)) =
    map Some (seq 0 (List.length (replies (trace_of r)))).
Proof.
  intros Hseed _ Hpos Hl. cbv zeta. split.
  - destruct (completion_shape listeners Hl openai text ic role
                (cleanup this) eq_refl)
      as (k & streamed & _ & Hreq & _ & _ & _ & _ & _ & _ & _ & _ & Hcase).
    exists k. split.
    + destruct Hcase as [(_ & Hzero & _)|[(j & -> & _)|(e & -> & _)]];
        cbn in *; lia.
    + rewrite Hreq. unfold sent_context, cleanup.
      cbn [userContext set_isProcessing]. now rewrite resetContext_seeded.
  - apply (completion_indices listeners openai text ic role
             (cleanup this) Hl).
Qed.

Lemma cleanup_forgets_history_witness :
  let this :=
    state_of (completion all_return (streams example_inline)
                         (js "hi") 7 user constructor) in
  let r := completion all_return (streams example_separate) (js "again") 8
                      user (cleanup this) in
  (exists k,
      0 < k /\
      requests (trace_of r) =
        repeat (seedContext ++ [ {| role := user; content := js "again" |} ])
               k) /\
  map index_of (replies (trace_of r)) =
    map Some (seq 0 (List.length (replies (trace_of r)))).
Proof.
  apply cleanup_forgets_history.
  - eexists. reflexivity.
  - reflexivity.
  - simpl; lia.
  - intros ev. reflexivity.
Defined.




(** A stream that ends without the stop signal and whose fragments do not
    end in the marker is recorded in the transcript in full, and no
    ["gptreply"] event is emitted for it. *)
Theorem unfinished_stream_is_silent listeners openai ic n this chunks :
  returning listeners ->
  openai n (userContext this) = Stream chunks None ->
  forallb plain chunks = true ->
  marker_chunks chunks = 0 ->
  let r := attempt listeners openai ic n this in
  outcome_of r = Returned tt /\
  events (trace_of r) = [] /\
  userContext (state_of r) =
    userContext this ++
    [ {| role := assistant; content := stream_text chunks |} ].
Proof.
  intros Hl Hstream Hplain Hnone. cbv zeta.
  assert (Hsegs : forall idx pr,
             segments ic (callSid this) chunks idx pr = []).
  { intros idx pr. apply length_zero_iff_nil.
    rewrite <- (app_nil_r chunks), segments_plain by exact Hplain.
    rewrite Hnone. reflexivity. }
  assert (Herr : stream_error chunks None = None).
  { clear - Hplain. induction chunks as [|chunk rest IH]; [reflexivity|].
    simpl in *. apply andb_prop in Hplain as [Hc Hrest]. unfold plain in Hc.
    destruct (choices chunk); [discriminate|]. now apply IH. }
  rewrite (attempt_run listeners Hl). cbv zeta. rewrite Hstream.
  cbn [attempt_error attempt_segments attempt_text]. rewrite Herr, Hsegs.
  cbn. repeat split.
Qed.

Lemma unfinished_stream_is_silent_witness :
  let chunks := [chunk_of "Hello" None; chunk_of " there" None] in
  let r := attempt all_return (streams chunks) 7 0 constructor in
  outcome_of r = Returned tt /\
  events (trace_of r) = [] /\
  userContext (state_of r) =
    userContext constructor ++
    [ {| role := assistant; content := stream_text chunks |} ].
Proof.
  apply (unfinished_stream_is_silent all_return
           (streams [chunk_of "Hello" None; chunk_of " there" None]) 7 0
           constructor);
    [intros ev; reflexivity|reflexivity|reflexivity|reflexivity].
Defined.

(** ** The text-to-speech form *)

(** Fetching the voices changes nothing, or leaves a list of voices that is
    not empty with its first voice selected; it never touches the text or
    the loading flag.  The handler [onvoiceschanged] is installed only when
    nothing was changed. *)
Theorem fetchVoices_selects_first w st :
  let st' := fst (App.fetchVoices w st) in
  (st' = st \/
   exists first rest,
     App.voices st' = first :: rest /\
     App.selectedVoice st' = App.voiceURI first /\
     App.findVoice st' = Some first) /\
  (snd (App.fetchVoices w st) = true -> st' = st) /\
  App.text st' = App.text st /\
  App.isLoading st' = App.isLoading st.
Proof.
  assert (Hfind : forall first rest s,
             App.findVoice
               (App.setSelectedVoice (App.voiceURI first)
                  (App.setVoices (first :: rest) s)) = Some first).
  { intros first rest s. unfold App.findVoice. cbn.
    unfold str_eqb.
    now destruct (list_eq_dec N.eq_dec (App.voiceURI first)
                              (App.voiceURI first)). }
  assert (Hfallback :
    let st' := fst (App.fallbackToWebSpeech w st) in
    (st' = st \/
     exists first rest,
       App.voices st' = first :: rest /\
       App.selectedVoice st' = App.voiceURI first /\
       App.findVoice st' = Some first) /\
    (snd (App.fallbackToWebSpeech w st) = true -> st' = st) /\
    App.text st' = App.text st /\
    App.isLoading st' = App.isLoading st).
  { unfold App.fallbackToWebSpeech.
    destruct (App.speechSynthesis w) as [synth|].
    - destruct (App.synth_getVoices synth) as [|[|first rest]]; cbn.
      + repeat split; try discriminate. right.
        exists App.defaultVoice, []. repeat split.
      + repeat split. now left.
      + repeat split; try discriminate. right. exists first, rest.
        repeat split. apply (Hfind first rest st).
    - cbn. repeat split; try discriminate. right.
      exists App.defaultVoice, []. repeat split. }
  unfold App.fetchVoices.
  destruct (App.chrome_tts w) as [tts|]; [|exact Hfallback].
  destruct (App.getVoices tts) as [| |[[|voice rest]|]]; try exact Hfallback.
  - cbn. repeat split; try discriminate. now left.
  - cbn [fst snd]. repeat split; try discriminate. right.
    exists (App.formatVoice voice), (map App.formatVoice rest).
    repeat split.
    apply (Hfind (App.formatVoice voice) (map App.formatVoice rest) st).
Qed.

Lemma fetchVoices_selects_first_witness :
  let w := {| App.chrome_tts := None;
              App.speechSynthesis :=
                Some {| App.synth_getVoices := App.SynthVoicesReturns [];
                        App.new_utterance := App.Returns;
                        App.synth_cancel := App.Returns;
                        App.synth_speak := App.Returns |} |} in
  let st' := fst (App.fetchVoices w App.initial) in
  (st' = App.initial \/
   exists first rest,
     App.voices st' = first :: rest /\
     App.selectedVoice st' = App.voiceURI first /\
     App.findVoice st' = Some first) /\
  (snd (App.fetchVoices w App.initial) = true -> st' = App.initial) /\
  App.text st' = App.text App.initial /\
  App.isLoading st' = App.isLoading App.initial.
Proof. apply fetchVoices_selects_first. Defined.

(** Voices delivered by [chrome.tts] are used whatever [speechSynthesis]
    offers; every voice then has a name, a language and a URI that are not
    empty, and the URI is the name. *)
Theorem chrome_voices_take_precedence w st tts voice rest :
  App.chrome_tts w = Some tts ->
  App.getVoices tts = App.GetVoicesCalls (Some (voice :: rest)) ->
  let st' := fst (App.fetchVoices w st) in
  App.voices st' = map App.formatVoice (voice :: rest) /\
  App.selectedVoice st' = App.or_unknown (App.voiceName voice) /\
  Forall (fun v => App.name v <> [] /\ App.lang v <> [] /\
                   App.voiceURI v = App.name v)
         (App.voices st').
Proof.
  intros Htts Hcalls. unfold App.fetchVoices. rewrite Htts, Hcalls.
  cbn [fst]. split; [reflexivity|]. split; [reflexivity|].
  assert (Hne : forall x, App.or_unknown x <> []).
  { intros [[|c s]|]; cbn; discriminate. }
  cbn [App.voices App.setSelectedVoice App.setVoices].
  apply Forall_map. apply Forall_forall. intros v _. cbn.
  repeat split; apply Hne.
Qed.

Lemma chrome_voices_take_precedence_witness :
  let tts := {| App.getVoices :=
                  App.GetVoicesCalls
                    (Some [ {| App.voiceName := Some (js "Alex");
                               App.tts_lang := None |};
                            {| App.voiceName := Some [];
                               App.tts_lang := Some (js "fr-FR") |} ]);
                App.tts_speak := App.Returns |} in
  let w := {| App.chrome_tts := Some tts; App.speechSynthesis := None |} in
  let st' := fst (App.fetchVoices w App.initial) in
  App.voices st' =
    map App.formatVoice
        [ {| App.voiceName := Some (js "Alex"); App.tts_lang := None |};
          {| App.voiceName := Some []; App.tts_lang := Some (js "fr-FR") |} ]
  /\
  App.selectedVoice st' = App.or_unknown (Some (js "Alex")) /\
  Forall (fun v => App.name v <> [] /\ App.lang v <> [] /\
                   App.voiceURI v = App.name v)
         (App.voices st').
Proof.
  apply (chrome_voices_take_precedence _ App.initial
           {| App.getVoices :=
                App.GetVoicesCalls
                  (Some [ {| App.voiceName := Some (js "Alex");
                             App.tts_lang := None |};
                          {| App.voiceName := Some [];
                             App.tts_lang := Some (js "fr-FR") |} ]);
              App.tts_speak := App.Returns |});
    reflexivity.
Defined.

(** Without an interface that yields voices (no [chrome.tts] voices, and
    [speechSynthesis] absent or throwing) the form offers the one default
    voice and selects it. *)
Theorem default_voice_when_no_interface w st :
  match App.chrome_tts w with
  | None => True
  | Some tts =>
    App.getVoices tts <> App.GetVoicesSilent /\
    forall voice rest,
      App.getVoices tts <> App.GetVoicesCalls (Some (voice :: rest))
  end ->
  match App.speechSynthesis w with
  | None => True
  | Some synth => App.synth_getVoices synth = App.SynthVoicesThrows
  end ->
  App.fetchVoices w st =
  (App.setSelectedVoice (js "default")
     (App.setVoices [App.defaultVoice] st), false).
Proof.
  intros Hchrome Hsynth.
  assert (Hfallback : App.fallbackToWebSpeech w st =
                      (App.useDefault st, false)).
  { unfold App.fallbackToWebSpeech.
    destruct (App.speechSynthesis w) as [synth|]; [|reflexivity].
    now rewrite Hsynth. }
  unfold App.fetchVoices.
  destruct (App.chrome_tts w) as [tts|]; [|exact Hfallback].
  destruct Hchrome as [Hsilent Hcalls].
  destruct (App.getVoices tts) as [| |[[|voice rest]|]]; try exact Hfallback.
  - now contradiction Hsilent.
  - now contradiction (Hcalls voice rest).
Qed.

Lemma default_voice_when_no_interface_witness :
  let w := {| App.chrome_tts :=
                Some {| App.getVoices := App.GetVoicesCalls (Some []);
                        App.tts_speak := App.Returns |};
              App.speechSynthesis := None |} in
  App.fetchVoices w App.initial =
  (App.setSelectedVoice (js "default")
     (App.setVoices [App.defaultVoice] App.initial), false).
Proof.
  apply default_voice_when_no_interface.
  - split; [discriminate|]. intros voice rest. discriminate.
  - exact I.
Defined.

Lemma trimStart_whitespace t :
  forallb isWhiteSpace t = true -> trimStart t = [].
Proof.
  induction t as [|c t IH]; [reflexivity|]. simpl. intros H.
  apply andb_prop in H as [Hc Ht]. rewrite Hc. now apply IH.
Qed.

(** A text is blank exactly when it consists of white space. *)
Lemma blank_iff t : App.blank t = true <-> forallb isWhiteSpace t = true.
Proof.
  unfold App.blank. split.
  - intros Hblank. destruct (trim t) as [|c r] eqn:Htrim; [|discriminate].
    pose proof (slice_last_trim t) as Hlast. rewrite Htrim in Hlast.
    unfold last_nonws in Hlast.
    destruct (find _ (rev t)) as [c|] eqn:Hfind; [discriminate|].
    apply forallb_forall. intros c Hc.
    apply in_rev in Hc.
    pose proof (find_none _ _ Hfind c Hc) as Hws.
    now apply negb_false_iff in Hws.
  - intros Hws. unfold trim, trimEnd.
    now rewrite (trimStart_whitespace t Hws).
Qed.

(** A click on a text of white space only does nothing, and the button is
    disabled for such a text. *)
Theorem click_on_blank_text w st :
  forallb isWhiteSpace (App.text st) = true ->
  App.handlePlayClick w st = (st, []) /\ App.disabled st = true.
Proof.
  intros Hws. apply blank_iff in Hws.
  unfold App.handlePlayClick, App.disabled. rewrite Hws.
  split; [reflexivity|apply orb_true_r].
Qed.

Lemma click_on_blank_text_witness :
  let st := App.setText (js "   ") App.initial in
  let w := {| App.chrome_tts := None; App.speechSynthesis := None |} in
  App.handlePlayClick w st = (st, []) /\ App.disabled st = true.
Proof. apply click_on_blank_text. reflexivity. Defined.

(** A click on a text that is not blank changes the loading flag only: it
    is left set exactly when the speech was handed to the browser and no
    call threw; a missing interface or an exception clears it at once.
    With [speechSynthesis] a started speech comes with the ten-second
    timer; with [chrome.tts] the click itself sets no timer. *)
Theorem click_loading w st :
  App.blank (App.text st) = false ->
  let r := App.handlePlayClick w st in
  App.text (fst r) = App.text st /\
  App.voices (fst r) = App.voices st /\
  App.selectedVoice (fst r) = App.selectedVoice st /\
  (App.isLoading (fst r) = true <-> App.started w) /\
  (App.chrome_tts w = None -> App.isLoading (fst r) = true ->
   In (App.SetTimeout 10000) (snd r)) /\
  (App.chrome_tts w <> None ->
   snd r = [App.TtsSpeak (App.text st) (App.selectedVoice st)]).
Proof.
  intros Hblank. unfold App.handlePlayClick, App.started. rewrite Hblank.
  destruct (App.chrome_tts w) as [tts|].
  - destruct (App.tts_speak tts); cbn;
      (repeat split; try discriminate; try reflexivity; try congruence).
  - destruct (App.speechSynthesis w) as [synth|].
    + destruct (App.new_utterance synth), (App.synth_cancel synth),
        (App.synth_speak synth); cbn;
        (repeat split; try discriminate; try reflexivity; try congruence;
         try tauto; try (intros (H1 & H2 & H3); discriminate)).
    + cbn. repeat split; try discriminate; try tauto; try congruence.
Qed.

Lemma click_loading_witness :
  let w := {| App.chrome_tts := None;
              App.speechSynthesis :=
                Some {| App.synth_getVoices := App.SynthVoicesReturns [];
                        App.new_utterance := App.Returns;
                        App.synth_cancel := App.Returns;
                        App.synth_speak := App.Throws |} |} in
  let st := App.setText (js "hello") App.initial in
  let r := App.handlePlayClick w st in
  App.text (fst r) = App.text st /\
  App.voices (fst r) = App.voices st /\
  App.selectedVoice (fst r) = App.selectedVoice st /\
  (App.isLoading (fst r) = true <-> App.started w) /\
  (App.chrome_tts w = None -> App.isLoading (fst r) = true ->
   In (App.SetTimeout 10000) (snd r)) /\
  (App.chrome_tts w <> None ->
   snd r = [App.TtsSpeak (App.text st) (App.selectedVoice st)]).
Proof. apply click_loading. reflexivity. Defined.

(** With [speechSynthesis] alone, voices fetched and a text typed, a click
    cancels what is being spoken and speaks the text as typed with the
    first fetched voice, then sets the ten-second timer. *)
Theorem click_speaks_with_first_voice w synth first rest st t :
  App.chrome_tts w = None ->
  App.speechSynthesis w = Some synth ->
  App.synth_getVoices synth = App.SynthVoicesReturns (first :: rest) ->
  App.new_utterance synth = App.Returns ->
  App.synth_cancel synth = App.Returns ->
  App.synth_speak synth = App.Returns ->
  App.blank t = false ->
  let st' := App.setText t (fst (App.fetchVoices w st)) in
  App.handlePlayClick w st' =
  (App.setIsLoading true st',
   [ App.NewUtterance t; App.SynthCancel; App.SynthSpeak t (Some first);
     App.SetTimeout 10000 ]).
Proof.
  intros Hchrome Hsynth Hvoices Hnew Hcancel Hspeak Hblank. cbv zeta.
  unfold App.fetchVoices, App.fallbackToWebSpeech, App.handlePlayClick.
  rewrite Hchrome, Hsynth, Hvoices. cbn [fst App.text App.setText].
  rewrite Hblank, Hnew, Hcancel, Hspeak.
  unfold App.findVoice. cbn. unfold str_eqb.
  now destruct (list_eq_dec N.eq_dec (App.voiceURI first)
                            (App.voiceURI first)).
Qed.

Lemma click_speaks_with_first_voice_witness :
  let first := {| App.name := js "Alex"; App.lang := js "en-US";
                  App.voiceURI := js "Alex" |} in
  let synth := {| App.synth_getVoices := App.SynthVoicesReturns [first];
                  App.new_utterance := App.Returns;
                  App.synth_cancel := App.Returns;
                  App.synth_speak := App.Returns |} in
  let w := {| App.chrome_tts := None; App.speechSynthesis := Some synth |} in
  let st' := App.setText (js " hello ") (fst (App.fetchVoices w App.initial)) in
  App.handlePlayClick w st' =
  (App.setIsLoading true st',
   [ App.NewUtterance (js " hello "); App.SynthCancel;
     App.SynthSpeak (js " hello ") (Some first); App.SetTimeout 10000 ]).
Proof.
  apply (click_speaks_with_first_voice _
           {| App.synth_getVoices :=
                App.SynthVoicesReturns
                  [ {| App.name := js "Alex"; App.lang := js "en-US";
                       App.voiceURI := js "Alex" |} ];
              App.new_utterance := App.Returns;
              App.synth_cancel := App.Returns;
              App.synth_speak := App.Returns |}
           {| App.name := js "Alex"; App.lang := js "en-US";
              App.voiceURI := js "Alex" |} [] App.initial (js " hello "));
    reflexivity.
Defined.
